(** * KnowLedgeLib chat front end: stream decoder and transcript reconciler

    A shallow embedding of [frontend/src/api/sse.ts] (the function
    [streamChat]) and of the script part of
    [frontend/src/pages/ChatPage.vue] ([toUiMessage], [attachToolResult],
    [loadHistory], [send]), followed by the properties stated about them.

    JavaScript strings are sequences of UTF-16 code units, so they are
    lists of [N] here.  Objects that the page mutates through more than one
    reference (the transcript entries) live in an explicit heap and the
    transcript array holds their addresses.  The framework's reactive
    proxies are taken to pass every read and write through to the object
    behind them. *)

From Stdlib Require Import NArith ZArith List String Ascii Lia Bool.
From Stdlib Require Import DecimalString.
From stdpp Require Import base option list gmap.
Import ListNotations.

Local Open Scope N_scope.

(** ** JavaScript strings *)

Module Js.

Definition jsstring := list N.

(** A source literal made of ASCII characters. *)
Definition lit (s : string) : jsstring :=
  List.map N_of_ascii (list_ascii_of_string s).

Definition LF : N := 10.

Fixpoint eqb (a b : jsstring) : bool :=
  match a, b with
  | [], [] => true
  | x :: a', y :: b' => N.eqb x y && eqb a' b'
  | _, _ => false
  end.

(** White space and line terminators of ECMAScript: what [trim],
    [trimEnd] and the regular expression class [\s] remove. *)
Definition is_space (c : N) : bool :=
  (c =? 9) || (c =? 10) || (c =? 11) || (c =? 12) || (c =? 13) ||
  (c =? 32) || (c =? 160) || (c =? 5760) ||
  ((8192 <=? c) && (c <=? 8202)) ||
  (c =? 8232) || (c =? 8233) || (c =? 8239) || (c =? 8287) ||
  (c =? 12288) || (c =? 65279).

Fixpoint drop_spaces (s : jsstring) : jsstring :=
  match s with
  | c :: s' => if is_space c then drop_spaces s' else s
  | [] => []
  end.

(** [s.trimEnd()] *)
Definition trimEnd (s : jsstring) : jsstring :=
  rev (drop_spaces (rev s)).

(** [s.trim()] *)
Definition trim (s : jsstring) : jsstring :=
  trimEnd (drop_spaces s).

(** [s.startsWith(p)] *)
Fixpoint startsWith (p s : jsstring) : bool :=
  match p, s with
  | [], _ => true
  | x :: p', y :: s' => N.eqb x y && startsWith p' s'
  | _ :: _, [] => false
  end.

(** Prepend a character to the first piece of a split. *)
Definition cons_first (c : N) (parts : list jsstring) : list jsstring :=
  match parts with
  | p :: ps => (c :: p) :: ps
  | [] => [[c]]
  end.

(** [s.split("\n")] *)
Fixpoint split_LF (s : jsstring) : list jsstring :=
  match s with
  | [] => [[]]
  | c :: s' => if c =? LF then [] :: split_LF s' else cons_first c (split_LF s')
  end.

(** [s.split("\n\n")]: the separators are found from left to right and do
    not overlap. *)
Fixpoint split_LFLF (s : jsstring) : list jsstring :=
  match s with
  | [] => [[]]
  | c :: s1 =>
      match s1 with
      | d :: s2 =>
          if (c =? LF) && (d =? LF) then [] :: split_LFLF s2
          else cons_first c (split_LFLF s1)
      | [] => [[c]]
      end
  end.

(** Decimal digits of a number, as template literals print an integer. *)
Definition of_N (n : N) : jsstring :=
  lit (NilEmpty.string_of_uint (N.to_uint n)).

End Js.

Export Js(jsstring).

(** ** The platform's UTF-8 [TextDecoder], used in streaming mode

    [new TextDecoder("utf-8")] followed by calls of
    [decode(value, {stream: true})]: the decoder of the Encoding Standard.
    Malformed input gives U+FFFD, a byte order mark at the very start is
    dropped, and an unfinished character is kept in the decoder's state for
    the next call. *)

Module TextDecoder.

Record t := mk {
  code_point : N;
  bytes_seen : N;
  bytes_needed : N;
  lower_boundary : N;
  upper_boundary : N;
  bom_seen : bool
}.

Definition init : t := mk 0 0 0 128 191 false.

Definition between (lo hi b : N) : bool := (lo <=? b) && (b <=? hi).

(** The decoder's handler when no character is in progress.  The result
    lists the scalar values produced. *)
Definition lead_byte (d : t) (b : N) : t * list N :=
  if between 0 127 b then (d, [b])
  else if between 194 223 b then
    (mk (N.land b 31) (bytes_seen d) 1 (lower_boundary d) (upper_boundary d)
        (bom_seen d), [])
  else if between 224 239 b then
    (mk (N.land b 15) (bytes_seen d) 2
        (if b =? 224 then 160 else lower_boundary d)
        (if b =? 237 then 159 else upper_boundary d)
        (bom_seen d), [])
  else if between 240 244 b then
    (mk (N.land b 7) (bytes_seen d) 3
        (if b =? 240 then 144 else lower_boundary d)
        (if b =? 244 then 143 else upper_boundary d)
        (bom_seen d), [])
  else (d, [65533]).

Definition handler (d : t) (b : N) : t * list N :=
  if bytes_needed d =? 0 then lead_byte d b
  else if negb (between (lower_boundary d) (upper_boundary d) b) then
    (* the byte is put back and read again after the error *)
    let '(d', out) := lead_byte (mk 0 0 0 128 191 (bom_seen d)) b in
    (d', 65533 :: out)
  else
    let cp := N.lor (N.shiftl (code_point d) 6) (N.land b 63) in
    let seen := bytes_seen d + 1 in
    if negb (seen =? bytes_needed d) then
      (mk cp seen (bytes_needed d) 128 191 (bom_seen d), [])
    else (mk 0 0 0 128 191 (bom_seen d), [cp]).

(** A scalar value as UTF-16 code units. *)
Definition utf16 (cp : N) : jsstring :=
  if cp <? 65536 then [cp]
  else
    let v := cp - 65536 in
    [55296 + N.shiftr v 10; 56320 + N.land v 1023].

(** Serialising the produced scalar values: the first one is dropped when
    it is the byte order mark. *)
Fixpoint serialize (seen : bool) (cps : list N) : bool * jsstring :=
  match cps with
  | [] => (seen, [])
  | cp :: rest =>
      if negb seen && (cp =? 65279) then serialize true rest
      else let '(seen', out) := serialize true rest in (seen', utf16 cp ++ out)
  end.

Definition decode_byte (d : t) (b : Byte.byte) : t * jsstring :=
  let '(d1, cps) := handler d (Byte.to_N b) in
  let '(seen, out) := serialize (bom_seen d1) cps in
  (mk (code_point d1) (bytes_seen d1) (bytes_needed d1)
      (lower_boundary d1) (upper_boundary d1) seen, out).

(** [decoder.decode(value, {stream: true})] *)
Fixpoint decode (d : t) (value : list Byte.byte) : t * jsstring :=
  match value with
  | [] => (d, [])
  | b :: rest =>
      let '(d1, out1) := decode_byte d b in
      let '(d2, out2) := decode d1 rest in
      (d2, out1 ++ out2)
  end.

End TextDecoder.

(** ** [api/sse.ts] *)

Module Sse.

(** [StreamEvent]; the payload of a [message] event has type [any] in
    [sse.ts] and is fixed by the caller. *)
Inductive StreamEvent (A : Type) : Type :=
  | token (content : jsstring)
  | message (content : A)
  | error (content : jsstring).
Arguments token {A} content.
Arguments message {A} content.
Arguments error {A} content.

(** A thrown [Error] object. *)
Record Exn := { name : jsstring; msg : jsstring }.

(** How a call that may throw ends; the state reached is kept in both
    cases, since mutations made before a throw stay. *)
Inductive completion (S : Type) : Type :=
  | Returned (s : S)
  | Threw (e : Exn) (s : S).
Arguments Returned {S} s.
Arguments Threw {S} e s.

(** What one iteration of the [for] loop asks of its loop: go on
    ([continue] or falling through), [return], or propagate a throw. *)
Inductive step (S : Type) : Type :=
  | Next (s : S)
  | Stop (s : S)
  | Raise (e : Exn) (s : S).
Arguments Next {S} s.
Arguments Stop {S} s.
Arguments Raise {S} e s.

(** The network as [streamChat] sees it: the promise of [fetch], the
    response's status and text, and the chunks that [reader.read()]
    delivers until the stream is done or a read throws. *)
Inductive ReadEnd := done | read_throws (e : Exn).
Record Body := { values : list (list Byte.byte); ending : ReadEnd }.
Record Response := {
  ok : bool;
  status : N;
  body : option Body;
  text : option jsstring   (* [None]: [res.text()] rejects *)
}.
Inductive Fetch := rejected (e : Exn) | resolved (res : Response).

Definition data_prefix : jsstring := Js.lit "data:".
Definition DONE : jsstring := Js.lit "[DONE]".
Definition bad_payload : jsstring := Js.lit "Bad SSE payload".

(** [chunk.split("\n").map((s) => s.trimEnd()).find((l) => l.startsWith("data:"))] *)
Definition find_line (chunk : jsstring) : option jsstring :=
  List.find (Js.startsWith data_prefix) (List.map Js.trimEnd (Js.split_LF chunk)).

(** [line.replace(/^data:\s*/, "")] *)
Definition replace_data (line : jsstring) : jsstring :=
  if Js.startsWith data_prefix line
  then Js.drop_spaces (skipn (length data_prefix) line)
  else line.

Section StreamChat.
Context {A S : Type}.
(** [JSON.parse] followed by the cast [obj as StreamEvent]; [None] when
    [JSON.parse] throws. *)
Variable JSON_parse : jsstring -> option (StreamEvent A).
Variable onEvent : StreamEvent A -> S -> completion S.

(** The [catch] clause. *)
Definition on_catch (s : S) : step S :=
  match onEvent (error bad_payload) s with
  | Returned s' => Next s'
  | Threw e s' => Raise e s'
  end.

(** The body of [for (const chunk of chunks)]. *)
Definition for_body (chunk : jsstring) (s : S) : step S :=
  match find_line chunk with
  | None => Next s
  | Some line =>
      let data := replace_data line in
      if Js.eqb data DONE then Stop s
      else
        match JSON_parse data with
        | Some obj =>
            match onEvent obj s with
            | Returned s' => Next s'
            | Threw _ s' => on_catch s'
            end
        | None => on_catch s
        end
  end.

Fixpoint for_chunks (chunks : list jsstring) (s : S) : step S :=
  match chunks with
  | [] => Next s
  | chunk :: rest =>
      match for_body chunk s with
      | Next s' => for_chunks rest s'
      | Stop s' => Stop s'
      | Raise e s' => Raise e s'
      end
  end.

(** The [while (true)] loop, over the values still to be read. *)
Fixpoint read_loop (decoder : TextDecoder.t) (buffer : jsstring)
    (values : list (list Byte.byte)) (ending : ReadEnd) (s : S)
    : completion S :=
  match values with
  | [] =>
      match ending with
      | done => Returned s
      | read_throws e => Threw e s
      end
  | value :: later =>
      let '(decoder', txt) := TextDecoder.decode decoder value in
      let buffer := buffer ++ txt in
      let chunks := Js.split_LFLF buffer in
      let buffer := List.last chunks [] in       (* [chunks.pop() || ""] *)
      let chunks := List.removelast chunks in
      match for_chunks chunks s with
      | Next s' => read_loop decoder' buffer later ending s'
      | Stop s' => Returned s'
      | Raise e s' => Threw e s'
      end
  end.

Definition stream_failed (res : Response) : Exn :=
  {| name := Js.lit "Error";
     msg := Js.lit "Stream failed: " ++ Js.of_N (status res) ++ Js.lit " "
            ++ default [] (text res) |}.

Definition streamChat (net : Fetch) (s : S) : completion S :=
  match net with
  | rejected e => Threw e s
  | resolved res =>
      match ok res, body res with
      | true, Some b => read_loop TextDecoder.init [] (values b) (ending b) s
      | _, _ => Threw (stream_failed res) s
      end
  end.

End StreamChat.

(** The events handed to the callback, in order: [streamChat] run with a
    callback that only records its argument. *)
Definition record_event {A} (ev : StreamEvent A) (tr : list (StreamEvent A))
    : completion (list (StreamEvent A)) :=
  Returned (tr ++ [ev]).

Definition events {A} (JSON_parse : jsstring -> option (StreamEvent A))
    (net : Fetch) : completion (list (StreamEvent A)) :=
  streamChat JSON_parse record_event net [].

End Sse.

(** ** [pages/ChatPage.vue] *)

(** Values of TypeScript type [any] that arrive in JSON: a number is kept
    as the bit pattern of its double. *)
#[local] Unset Elimination Schemes.
Inductive JsValue : Type :=
  | JNull
  | JBool (b : bool)
  | JNumber (bits : N)
  | JString (s : jsstring)
  | JArray (items : list JsValue)
  | JObject (fields : list (jsstring * JsValue)).
#[local] Set Elimination Schemes.

(** ** Plain objects used as maps

    [toolResults] is an object created by the literal [{}] and written by
    [msg.toolResults[toolCallId] = result].  Such an object has its own
    properties and a prototype, [Object.prototype] at first; the name
    [__proto__] is inherited from there as an accessor, so that assigning
    to it changes the prototype, or does nothing, instead of creating a
    property. *)

Module JsObject.

Inductive Proto :=
  | object_prototype
  | proto_object (fields : list (jsstring * JsValue))
  | proto_array (items : list JsValue)
  | no_prototype.

Record t := mk { own : gmap jsstring JsValue; proto : Proto }.

(** The literal [{}]: no own property, prototype [Object.prototype]. *)
#[global] Instance empty : Empty t := mk ∅ object_prototype.

Definition proto_key : jsstring := Js.lit "__proto__".

(** The value of the field [key] of an object that arrived in JSON; when a
    key occurs twice the last occurrence counts, as [JSON.parse] has it. *)
Definition field (key : jsstring) (fields : list (jsstring * JsValue))
    : option JsValue :=
  option_map snd (List.find (fun f => Js.eqb (fst f) key) (rev fields)).

(** Creating or overwriting an own property. *)
Definition define (key : jsstring) (v : JsValue) (o : t) : t :=
  mk (<[key := v]> (own o)) (proto o).

(** The setter of [Object.prototype.__proto__]: an object, an array or
    [null] becomes the prototype, any other value is ignored. *)
Definition set_prototype (v : JsValue) (o : t) : t :=
  match v with
  | JObject fields => mk (own o) (proto_object fields)
  | JArray items => mk (own o) (proto_array items)
  | JNull => mk (own o) no_prototype
  | JBool _ | JNumber _ | JString _ => o
  end.

(** [o[key] = v].  Every name but [__proto__] becomes an own property.
    For [__proto__] the setter runs when it is inherited: that is, unless
    the object has an own property of that name, or a prototype that has
    one, or no prototype. *)
Definition set (key : jsstring) (v : JsValue) (o : t) : t :=
  if negb (Js.eqb key proto_key) then define key v o
  else
    match own o !! key with
    | Some _ => define key v o
    | None =>
        match proto o with
        | no_prototype => define key v o
        | proto_object fields =>
            match field proto_key fields with
            | Some _ => define key v o
            | None => set_prototype v o
            end
        | proto_array _ | object_prototype => set_prototype v o
        end
    end.






Section Reading.
(** The names of the properties of [Array.prototype], which depend on the
    platform's version. *)
Variable Array_prototype_names : list jsstring.



End Reading.
End JsObject.

Module ToolCall.
Record t := mk { id : jsstring; name : jsstring; args : JsValue }.
End ToolCall.

Inductive Role := human | ai | tool | custom.

Definition Role_eqb (a b : Role) : bool :=
  match a, b with
  | human, human | ai, ai | tool, tool | custom, custom => true
  | _, _ => false
  end.

(** [ChatMsg]: an optional field is [None] when it is absent. *)
Module ChatMsg.
Record t := mk {
  type : Role;
  content : JsValue;
  run_id : option jsstring;
  tool_calls : option (list ToolCall.t);
  tool_call_id : option jsstring;
  custom_data : option JsValue
}.
End ChatMsg.

(** [UiMessage] *)
Module UiMessage.
Record t := mk {
  id : jsstring;
  role : Role;
  content : jsstring;
  runId : option jsstring;
  toolCalls : option (list ToolCall.t);
  toolResults : option JsObject.t
}.

Definition set_content (c : jsstring) (m : t) : t :=
  mk (id m) (role m) c (runId m) (toolCalls m) (toolResults m).
Definition set_runId (r : option jsstring) (m : t) : t :=
  mk (id m) (role m) (content m) r (toolCalls m) (toolResults m).
Definition set_toolCalls (tc : option (list ToolCall.t)) (m : t) : t :=
  mk (id m) (role m) (content m) (runId m) tc (toolResults m).
Definition set_toolResults (tr : option JsObject.t) (m : t) : t :=
  mk (id m) (role m) (content m) (runId m) (toolCalls m) tr.
End UiMessage.

Module Chat.
Import Sse.

(** The reactive state of the page that the transcript code touches.
    [heap] holds every [UiMessage] object created so far, in creation
    order, and an object's address is its position; [messages] is the
    array [messages.value], a list of addresses.  [uuids] counts the calls
    of [uuid()]. *)
Record State := mkState {
  heap : list UiMessage.t;
  messages : list nat;
  input : jsstring;
  loading : bool;
  uuids : nat
}.

Definition set_heap (h : list UiMessage.t) (st : State) : State :=
  mkState h (messages st) (input st) (loading st) (uuids st).
Definition set_messages (ms : list nat) (st : State) : State :=
  mkState (heap st) ms (input st) (loading st) (uuids st).
Definition set_input (i : jsstring) (st : State) : State :=
  mkState (heap st) (messages st) i (loading st) (uuids st).
Definition set_loading (b : bool) (st : State) : State :=
  mkState (heap st) (messages st) (input st) b (uuids st).
Definition set_uuids (n : nat) (st : State) : State :=
  mkState (heap st) (messages st) (input st) (loading st) n.

(** The entries of the transcript, as the page shows them. *)
Definition transcript (st : State) : list (option UiMessage.t) :=
  List.map (fun a => heap st !! a) (messages st).

(** Truthiness of a string and of a value. *)
Definition nonempty (s : jsstring) : bool :=
  match s with [] => false | _ :: _ => true end.

Definition number_truthy (bits : N) : bool :=
  let magnitude := N.land bits 9223372036854775807 in
  let exponent := N.shiftr magnitude 52 in
  let fraction := N.land bits 4503599627370495 in
  negb (magnitude =? 0) && negb ((exponent =? 2047) && negb (fraction =? 0)).

Definition truthy (v : JsValue) : bool :=
  match v with
  | JNull => false
  | JBool b => b
  | JNumber bits => number_truthy bits
  | JString s => nonempty s
  | JArray _ | JObject _ => true
  end.

Section Page.
(** The value that the n-th call of [uuid()] returns. *)
Variable uuid_value : nat -> jsstring.
(** [JSON.stringify(v, null, 2)] *)
Variable JSON_stringify : JsValue -> jsstring.
(** [JSON.parse] as [streamChat] uses it, with the page's reading of a
    message event's content as a [ChatMsg]. *)
Variable JSON_parse : jsstring -> option (StreamEvent ChatMsg.t).

Definition uuid (st : State) : jsstring * State :=
  (uuid_value (uuids st), set_uuids (Datatypes.S (uuids st)) st).

(** [typeof v === "string" ? v : JSON.stringify(v, null, 2)] *)
Definition display (v : JsValue) : jsstring :=
  match v with
  | JString s => s
  | _ => JSON_stringify v
  end.

(** Creating an object: it gets the next address. *)
Definition alloc (m : UiMessage.t) (st : State) : nat * State :=
  (length (heap st), set_heap (heap st ++ [m]) st).

(** Assigning to fields of the object at address [a]. *)
Definition modify (a : nat) (f : UiMessage.t -> UiMessage.t) (st : State)
    : State :=
  match heap st !! a with
  | Some m => set_heap (<[a := f m]> (heap st)) st
  | None => st
  end.

(** [messages.value.push(m)] for a fresh object [m]. *)
Definition push (m : UiMessage.t) (st : State) : State :=
  let '(a, st) := alloc m st in
  set_messages (messages st ++ [a]) st.

Definition toUiMessage (m : ChatMsg.t) (st : State) : nat * State :=
  let '(i, st) := uuid st in
  alloc (UiMessage.mk i (ChatMsg.type m) (display (ChatMsg.content m))
           (ChatMsg.run_id m) (ChatMsg.tool_calls m) (Some ∅)) st.

(** [msg.toolCalls.some((tc) => tc.id === toolCallId)] *)
Definition some_id (toolCallId : jsstring) (calls : list ToolCall.t) : bool :=
  existsb (fun tc => Js.eqb (ToolCall.id tc) toolCallId) calls.

(** The tests of the loop body that lead to [continue]. *)
Definition holds_call (toolCallId : jsstring) (msg : UiMessage.t) : bool :=
  Role_eqb (UiMessage.role msg) ai &&
  match UiMessage.toolCalls msg with
  | Some (tc :: calls) => some_id toolCallId (tc :: calls)
  | Some [] | None => false
  end.

(** The [for] loop of [attachToolResult], over the addresses
    [messages.value[i]] for [i] from the last index down to 0; [Some]
    when the loop body returns. *)
Fixpoint attach_loop (toolCallId : jsstring) (result : JsValue)
    (downwards : list nat) (st : State) : option State :=
  match downwards with
  | [] => None
  | a :: below =>
      match heap st !! a with
      | Some msg =>
          if holds_call toolCallId msg then
            Some (modify a (fun msg =>
                    UiMessage.set_toolResults
                      (Some (JsObject.set toolCallId result
                               (default ∅ (UiMessage.toolResults msg)))) msg) st)
          else attach_loop toolCallId result below st
      | None => attach_loop toolCallId result below st
      end
  end.

Definition attachToolResult (toolCallId : jsstring) (result : JsValue)
    (st : State) : State :=
  match attach_loop toolCallId result (rev (messages st)) st with
  | Some st' => st'
  | None =>
      let '(i, st) := uuid st in
      push (UiMessage.mk i tool (display result) None None None) st
  end.

(** [m.type === "tool" && m.tool_call_id] *)
Definition tool_result_id (m : ChatMsg.t) : option jsstring :=
  match ChatMsg.type m, ChatMsg.tool_call_id m with
  | tool, Some i => if nonempty i then Some i else None
  | _, _ => None
  end.

(** The loop of [loadHistory]: [ui] is the local array being built. *)
Fixpoint history_loop (ms : list ChatMsg.t) (ui : list nat) (st : State)
    : list nat * State :=
  match ms with
  | [] => (ui, st)
  | m :: rest =>
      let '(u, st) := toUiMessage m st in
      let ui := ui ++ [u] in
      let st :=
        match tool_result_id m with
        | Some i => attachToolResult i (ChatMsg.content m) st
        | None => st
        end in
      history_loop rest ui st
  end.

(** [loadHistory], given [res.messages] ([None] when the field is
    missing or null). *)
Definition loadHistory (res_messages : option (list ChatMsg.t)) (st : State)
    : State :=
  let '(ui, st) := history_loop (default [] res_messages) [] st in
  set_messages ui st.

Definition startNewConversation (st : State) : State :=
  set_messages [] st.

Definition append_content (extra : jsstring) (m : UiMessage.t) : UiMessage.t :=
  UiMessage.set_content (UiMessage.content m ++ extra) m.

Definition error_notice (c : jsstring) : jsstring :=
  [Js.LF; Js.LF] ++ Js.lit "[Error] " ++ c.

(** [e?.message || String(e)] *)
Definition exn_text (e : Exn) : jsstring :=
  if nonempty (msg e) then msg e else name e.

Definition failure_notice (e : Exn) : jsstring :=
  [Js.LF; Js.LF] ++ Js.lit "[Stream Failed] " ++ exn_text e.

(** The [m.type === "ai"] branch. *)
Definition on_ai (m : ChatMsg.t) (entry : UiMessage.t) : UiMessage.t :=
  let entry :=
    match ChatMsg.content m with
    | JString s =>
        if nonempty s then UiMessage.set_content s entry else entry
    | v =>
        if truthy v then UiMessage.set_content (JSON_stringify v) entry
        else entry
    end in
  let entry := UiMessage.set_runId (ChatMsg.run_id m) entry in
  let entry :=
    UiMessage.set_toolCalls (Some (default [] (ChatMsg.tool_calls m))) entry in
  UiMessage.set_toolResults
    (Some (default ∅ (UiMessage.toolResults entry))) entry.

(** [typeof m.custom_data === "string" ? m.custom_data
     : JSON.stringify(m.custom_data ?? m.content, null, 2)] *)
Definition custom_text (m : ChatMsg.t) : jsstring :=
  match ChatMsg.custom_data m with
  | Some (JString s) => s
  | Some JNull | None => JSON_stringify (ChatMsg.content m)
  | Some v => JSON_stringify v
  end.

(** The [ev.type === "message"] branch. *)
Definition on_message (aiPlaceholder : nat) (m : ChatMsg.t) (st : State)
    : State :=
  let st :=
    if Role_eqb (ChatMsg.type m) ai then modify aiPlaceholder (on_ai m) st
    else st in
  let st :=
    match tool_result_id m with
    | Some i => attachToolResult i (ChatMsg.content m) st
    | None => st
    end in
  if Role_eqb (ChatMsg.type m) custom then
    let '(i, st) := uuid st in
    push (UiMessage.mk i custom (custom_text m) None None None) st
  else st.

(** The callback that [send] passes to [streamChat]. *)
Definition on_event (aiPlaceholder : nat) (ev : StreamEvent ChatMsg.t)
    (st : State) : State :=
  match ev with
  | token c => modify aiPlaceholder (append_content c) st
  | error c => modify aiPlaceholder (append_content (error_notice c)) st
  | message m => on_message aiPlaceholder m st
  end.

(** The part of [send] before the [try] statement, once the send is
    accepted; it gives the address of the placeholder. *)
Definition send_begin (text : jsstring) (st : State) : nat * State :=
  let st := set_loading true st in
  let '(i, st) := uuid st in
  let st := push (UiMessage.mk i human text None None None) st in
  let '(i, st) := uuid st in
  let '(aiPlaceholder, st) :=
    alloc (UiMessage.mk i ai [] None (Some []) (Some ∅)) st in
  let st := set_messages (messages st ++ [aiPlaceholder]) st in
  (aiPlaceholder, set_input [] st).

(** The [try] and [catch] clauses. *)
Definition send_try (aiPlaceholder : nat) (net : Fetch) (st : State) : State :=
  match streamChat JSON_parse
          (fun ev s => Returned (on_event aiPlaceholder ev s)) net st with
  | Returned st' => st'
  | Threw e st' => modify aiPlaceholder (append_content (failure_notice e)) st'
  end.

(** The [finally] clause. *)
Definition send_finally (st : State) : State := set_loading false st.

(** [send], given what the network answers to its request. *)
Definition send (net : Fetch) (st : State) : State :=
  let text := Js.trim (input st) in
  if negb (nonempty text) || loading st then st
  else
    let '(aiPlaceholder, st) := send_begin text st in
    send_finally (send_try aiPlaceholder net st).

End Page.

(** *** Notions used to state the properties *)

(** An [ai] entry whose [toolCalls] has a call with the given id. *)
Definition lists_call (toolCallId : jsstring) (msg : UiMessage.t) : Prop :=
  UiMessage.role msg = ai /\
  exists calls tc,
    UiMessage.toolCalls msg = Some calls /\ In tc calls /\
    ToolCall.id tc = toolCallId.

(** Every address of the transcript is the address of an object. *)
Definition well_formed (st : State) : Prop :=
  Forall (fun a => (a < length (heap st))%nat) (messages st).

(** The local array [ui] of [loadHistory] holds addresses of objects that
    are not in [messages.value]. *)
Definition apart (ui : list nat) (st : State) : Prop :=
  Forall (fun a => (a < length (heap st))%nat /\ ~ In a (messages st)) ui.

(** The number of [ai] objects created so far. *)
Definition ai_objects (st : State) : nat :=
  length (List.filter (fun m => Role_eqb (UiMessage.role m) ai) (heap st)).

End Chat.

(** ** Data for the examples *)

Module Fixtures.
Import Sse.

(** [JSON.parse] on the payloads an example uses, given as a table; any
    other payload is taken as malformed. *)
Definition parse_table {A} (table : list (jsstring * StreamEvent A))
    (data : jsstring) : option (StreamEvent A) :=
  option_map snd (List.find (fun row => Js.eqb (fst row) data) table).

Definition bytes (s : string) : list Byte.byte := list_byte_of_string s.

(** The two line feeds that close a block. *)
Definition blank : list Byte.byte := [Byte.x0a; Byte.x0a].

(** A successful response that delivers [values] and then ends. *)
Definition delivers (values : list (list Byte.byte)) : Fetch :=
  resolved {| ok := true; status := 200;
              body := Some {| values := values; ending := done |};
              text := None |}.

(** Payloads [T1], [T2] and the letter e with acute accent, read as three
    token events. *)
Definition tokens_table : list (jsstring * StreamEvent ChatMsg.t) :=
  [ (Js.lit "T1", token (Js.lit "He"));
    (Js.lit "T2", token (Js.lit "llo"));
    ([233], token [233]) ].

(** One stream, whole and cut inside the prefix, inside the separator and
    inside the two-byte character. *)
Definition stream_whole : list (list Byte.byte) :=
  [ bytes "data: T1" ++ blank ++ bytes "data:T2" ++ blank ++
    bytes "data: " ++ [Byte.xc3; Byte.xa9] ++ blank ++
    bytes "data: [DONE]" ++ blank ].

Definition stream_cut : list (list Byte.byte) :=
  [ bytes "da"; bytes "ta: T1" ++ [Byte.x0a];
    [Byte.x0a] ++ bytes "data:T2" ++ blank ++ bytes "da";
    bytes "ta: " ++ [Byte.xc3];
    [Byte.xa9] ++ blank ++ bytes "data: [DONE]" ++ [Byte.x0a];
    [Byte.x0a] ].

(** A value in which a block follows the sentinel, and the value after
    it. *)
Definition value_past_DONE : list Byte.byte :=
  bytes "data: T1" ++ blank ++ bytes "data: [DONE]" ++ blank ++
  bytes "data: T2" ++ blank ++ bytes "data: T".

Definition values_after_DONE : list (list Byte.byte) :=
  [ bytes "2" ++ blank ].

(** A malformed payload between two good ones. *)
Definition stream_malformed : list (list Byte.byte) :=
  [ bytes "data: T1" ++ blank ++ bytes "data: {oops" ++ blank;
    bytes "data: T2" ++ blank ].

(** The stream of two tokens and the sentinel. *)
Definition stream_hello : list (list Byte.byte) :=
  [ bytes "data: T1" ++ blank ++ bytes "data: T2" ++ blank;
    bytes "data: [DONE]" ++ blank ].

(** The page before anything happened, with a text typed in. *)
Definition fresh_page (typed : jsstring) : Chat.State :=
  Chat.mkState [] [] typed false 0.

Definition uuid_value (n : nat) : jsstring :=
  Js.lit "id-" ++ Js.of_N (N.of_nat n).

(** A stand-in for [JSON.stringify]; the examples only display strings,
    for which it is not called. *)
Definition stringify (v : JsValue) : jsstring := Js.lit "(json)".

Definition call_a : ToolCall.t :=
  ToolCall.mk (Js.lit "a") (Js.lit "search") (JObject []).
Definition call_b : ToolCall.t :=
  ToolCall.mk (Js.lit "b") (Js.lit "lookup") (JObject []).

(** A history of one assistant turn that calls two tools, followed by the
    result of the second call. *)
Definition history_with_result : list ChatMsg.t :=
  [ ChatMsg.mk human (JString (Js.lit "hi")) None None None None;
    ChatMsg.mk ai (JString []) (Some (Js.lit "run-1"))
      (Some [call_a; call_b]) None None;
    ChatMsg.mk tool (JString (Js.lit "42")) None None (Some (Js.lit "b")) None ].

End Fixtures.

(** ** [api/http.ts] *)

Module Http.
Import Sse.

(** An awaited promise: its value, or the error it rejects with. *)
Inductive attempt (A : Type) : Type :=
  | gives (a : A)
  | fails (e : Exn).
Arguments gives {A} a.
Arguments fails {A} e.

(** The response as [apiFetch] reads it. *)
Record Reply := {
  ok : bool;
  status : N;
  content_type : option jsstring;   (* [res.headers.get("content-type")] *)
  text : attempt jsstring;          (* [await res.text()] *)
  json : attempt JsValue            (* [await res.json()] *)
}.
Inductive Fetch := rejected (e : Exn) | resolved (res : Reply).

(** [s.includes(needle)] *)
Fixpoint includes (needle s : jsstring) : bool :=
  Js.startsWith needle s ||
  match s with
  | [] => false
  | _ :: s' => includes needle s'
  end.

Definition application_json : jsstring := Js.lit "application/json".

Definition apiFetch (net : Fetch) : attempt JsValue :=
  match net with
  | rejected e => fails e
  | resolved res =>
      if negb (ok res) then
        match text res with
        | gives t =>
            fails {| name := Js.lit "Error";
                     msg := Js.of_N (status res) ++ Js.lit " " ++ t |}
        | fails e => fails e
        end
      else
        let ct := default [] (content_type res) in
        if negb (includes application_json ct) then
          match text res with
          | gives t => gives (JString t)
          | fails e => fails e
          end
        else json res
  end.

End Http.

(** ** [stores/auth.ts] *)

Module Auth.
Import Sse.

(** The state of the store; [me] is [JNull] for [null]. *)
Record Store := mk {
  me : JsValue;
  loading : bool;
  error : jsstring;
  _meChecked : bool
}.

Definition state : Store := mk JNull false [] false.

Definition set_me (v : JsValue) (s : Store) : Store :=
  mk v (loading s) (error s) (_meChecked s).
Definition set_loading (b : bool) (s : Store) : Store :=
  mk (me s) b (error s) (_meChecked s).
Definition set_error (e : jsstring) (s : Store) : Store :=
  mk (me s) (loading s) e (_meChecked s).
Definition set_meChecked (b : bool) (s : Store) : Store :=
  mk (me s) (loading s) (error s) b.

(** The getter [isAuthed]: [!!s.me]. *)
Definition isAuthed (s : Store) : bool := Chat.truthy (me s).

(** [refreshMe(force)], given the answer to [/auth/me]. *)
Definition refreshMe (force : bool) (net : Http.Fetch) (s : Store) : Store :=
  if _meChecked s && negb force then s
  else
    let s := set_loading true s in
    let s := set_error [] s in
    let s :=
      match Http.apiFetch net with
      | Http.gives v => set_me v s
      | Http.fails _ => set_me JNull s
      end in
    let s := set_loading false s in
    set_meChecked true s.

Definition empty_me : Exn :=
  {| name := Js.lit "Error";
     msg := Js.lit "Login succeeded but /auth/me returned empty" |}.

(** [login], given the answers to [/auth/login] and to [/auth/me]. *)
Definition login (net_login net_me : Http.Fetch) (s : Store)
    : completion Store :=
  let s := set_loading true s in
  let s := set_error [] s in
  let tried :=
    match Http.apiFetch net_login with
    | Http.fails e => Threw e s
    | Http.gives _ =>
        let s := refreshMe true net_me s in
        if negb (Chat.truthy (me s)) then Threw empty_me s else Returned s
    end in
  match tried with
  | Returned s => Returned (set_loading false s)
  | Threw e s => Threw e (set_loading false (set_error (Chat.exn_text e) s))
  end.

(** [logout], given the answer to [/auth/logout]. *)
Definition logout (net : Http.Fetch) (s : Store) : Store :=
  let s := set_loading true s in
  let s := set_error [] s in
  let s :=
    match Http.apiFetch net with
    | Http.gives _ => s
    | Http.fails _ => s
    end in
  let s := set_me JNull s in
  let s := set_meChecked true s in
  set_loading false s.

End Auth.

(** ** [router/index.ts] *)

Module Router.

(** What the guard reads of the target location. *)
Record Location := {
  path : jsstring;
  fullPath : jsstring;
  requiresAuth : bool      (* [to.meta.requiresAuth], as a condition *)
}.

(** What the guard returns: [true], the login location with the target
    as [redirect] query, or ["/chat"]. *)
Inductive Navigation :=
  | proceed
  | to_login (redirect : jsstring)
  | to_chat.

(** The guard, given the answer [/auth/me] would get. *)
Definition beforeEach (net : Http.Fetch) (to : Location) (auth : Auth.Store)
    : Navigation * Auth.Store :=
  let auth :=
    if negb (Auth._meChecked auth) then Auth.refreshMe false net auth
    else auth in
  if requiresAuth to && negb (Auth.isAuthed auth) then
    (to_login (fullPath to), auth)
  else if Js.eqb (path to) (Js.lit "/login") && Auth.isAuthed auth then
    (to_chat, auth)
  else (proceed, auth).

End Router.

(** ** The login page *)

Module LoginPage.
Import Sse.

(** The page's refs and what it asked of the router. *)
Record Page := mk {
  localError : jsstring;
  replaced : option jsstring      (* the argument of [router.replace] *)
}.

(** [onSubmit], given [route.query.redirect] and the answers of the
    network. *)
Definition onSubmit (redirect : option jsstring)
    (net_login net_me : Http.Fetch) (auth : Auth.Store)
    : Page * Auth.Store :=
  match Auth.login net_login net_me auth with
  | Returned auth' =>
      let target :=
        match redirect with
        | Some r => if Chat.nonempty r then r else Js.lit "/chat"
        | None => Js.lit "/chat"
        end in
      (mk [] (Some target), auth')
  | Threw e auth' =>
      let shown :=
        if Chat.nonempty (Auth.error auth') then Auth.error auth'
        else if Chat.nonempty (msg e) then msg e
        else Js.lit "Login failed" in
      (mk shown None, auth')
  end.

End LoginPage.

(** ** [pages/ChatPage.vue]: the conversation id and the template *)

Module Session.

(** [route.query.thread_id] *)
Inductive QueryValue :=
  | q_missing
  | q_string (s : jsstring)
  | q_array.

(** The transcript state together with [threadId] and the thread ids the
    page wrote back to the URL with [router.replace]. *)
Record t := mk {
  page : Chat.State;
  threadId : jsstring;
  written : list jsstring
}.

Section Session.
Variable uuid_value : nat -> jsstring.

Definition ensureThreadId (q : QueryValue) (s : t) : t :=
  match q with
  | q_string v =>
      if Chat.nonempty (Js.trim v) then mk (page s) (Js.trim v) (written s)
      else
        let '(tid, st) := Chat.uuid uuid_value (page s) in
        mk st tid (written s ++ [tid])
  | q_missing | q_array =>
      let '(tid, st) := Chat.uuid uuid_value (page s) in
      mk st tid (written s ++ [tid])
  end.

Definition startNewConversation (s : t) : t :=
  let st := Chat.startNewConversation (page s) in
  let '(tid, st) := Chat.uuid uuid_value st in
  mk st tid (written s ++ [tid]).

End Session.
End Session.

Module Template.


Section Template.
Variable JSON_stringify : JsValue -> jsstring.
Variable Array_prototype_names : list jsstring.



End Template.
End Template.

(** ** More data for the examples *)

Module Cases.
Import Fixtures.

Definition CRLF : list Byte.byte := [Byte.x0d; Byte.x0a].

(** A stream whose lines end with CR LF. *)
Definition stream_CRLF : list (list Byte.byte) :=
  [ bytes "data: T1" ++ CRLF ++ CRLF;
    bytes "data: [DONE]" ++ CRLF ++ CRLF ].

(** The page while a send streams, before and after the assistant's
    message that calls the tools [a] and [b]. *)
Definition page_streaming : Chat.State :=
  snd (Chat.send_begin uuid_value (Js.lit "hi") (fresh_page [])).

Definition turn_with_calls : ChatMsg.t :=
  ChatMsg.mk ai (JString []) (Some (Js.lit "run-1"))
    (Some [call_a; call_b]) None None.

Definition page_with_calls : Chat.State :=
  Chat.on_event uuid_value stringify 1 (Sse.message turn_with_calls)
    page_streaming.

Definition result_of_b : ChatMsg.t :=
  ChatMsg.mk tool (JString (Js.lit "42")) None None (Some (Js.lit "b")) None.

(** The same page when the assistant's message calls a tool under the id
    [__proto__]. *)
Definition call_proto : ToolCall.t :=
  ToolCall.mk JsObject.proto_key (Js.lit "lookup") (JObject []).

Definition page_with_proto_call : Chat.State :=
  Chat.on_event uuid_value stringify 1
    (Sse.message (ChatMsg.mk ai (JString []) (Some (Js.lit "run-1"))
                    (Some [call_proto]) None None))
    page_streaming.

End Cases.

(** ** More notions used to state the properties *)

Module Notions.
Import Chat.

(** Every object of [st] is still there in [st'], with the same id and
    the same role. *)
Definition keeps_entries (st st' : State) : Prop :=
  forall a m, heap st !! a = Some m ->
    exists m', heap st' !! a = Some m' /\
               UiMessage.id m' = UiMessage.id m /\
               UiMessage.role m' = UiMessage.role m.

(** [st'] shows the entries of [st], in the same places, and at most
    [n] more after them. *)
Definition appends_at_most (n : nat) (st st' : State) : Prop :=
  exists extra, messages st' = messages st ++ extra /\ (length extra <= n)%nat.

(** Events that only write to the placeholder: a token, an error, or a
    message of role [ai]. *)
Definition writes_placeholder_only (ev : Sse.StreamEvent ChatMsg.t) : Prop :=
  match ev with
  | Sse.token _ | Sse.error _ => True
  | Sse.message m => ChatMsg.type m = ai
  end.

End Notions.

(** * Properties *)

Module JsFacts.
Import Js.

Lemma eqb_eq (a b : jsstring) : eqb a b = true <-> a = b.
Proof.
  revert b; induction a as [|x a IH]; intros [|y b]; simpl; try easy.
  rewrite andb_true_iff, N.eqb_eq, IH. split.
  - intros [-> ->]; reflexivity.
  - intros [= -> ->]; auto.
Qed.

Lemma startsWith_app (p s : jsstring) : startsWith p (p ++ s) = true.
Proof.
  induction p as [|x p IH]; simpl; [reflexivity|].
  now rewrite N.eqb_refl, IH.
Qed.

Lemma drop_spaces_app (spaces rest : jsstring) :
  Forall (fun c => is_space c = true) spaces ->
  drop_spaces (spaces ++ rest) = drop_spaces rest.
Proof.
  induction 1 as [|c spaces Hc _ IH]; simpl; [reflexivity|].
  now rewrite Hc.
Qed.

(** Induction that follows the recursion of [split_LFLF]. *)
Lemma two_step_ind {A} (P : list A -> Prop) :
  P [] -> (forall c, P [c]) ->
  (forall c d s, P s -> P (d :: s) -> P (c :: d :: s)) ->
  forall s, P s.
Proof.
  intros H0 H1 H2 s.
  enough (P s /\ forall c, P (c :: s)) by tauto.
  induction s as [|d s [IHs IHc]]; split; auto.
Qed.

Lemma split_LFLF_cons2 c d s :
  split_LFLF (c :: d :: s) =
  if (c =? LF) && (d =? LF) then [] :: split_LFLF s
  else cons_first c (split_LFLF (d :: s)).
Proof. reflexivity. Qed.

Lemma split_LFLF_not_nil s : split_LFLF s <> [].
Proof.
  induction s as [| c | c d s IH1 IH2] using two_step_ind; try easy.
  rewrite split_LFLF_cons2. destruct (_ && _); [easy|].
  destruct (split_LFLF (d :: s)); easy.
Qed.

(** A buffer in which [split] finds no separator comes back whole. *)
Lemma split_LFLF_single s r : split_LFLF s = [r] -> r = s.
Proof.
  revert r. induction s as [| c | c d s IH1 IH2] using two_step_ind; intros r.
  - now intros [= <-].
  - now intros [= <-].
  - rewrite split_LFLF_cons2. destruct (_ && _).
    + intros [= _ H]. now apply split_LFLF_not_nil in H.
    + pose proof (split_LFLF_not_nil (d :: s)) as Hne.
      destruct (split_LFLF (d :: s)) as [|p [|q ps]]; simpl; try easy.
      intros [= <-]. now rewrite (IH2 p eq_refl).
Qed.

(** What [chunks.pop()] leaves for the next round holds no separator. *)
Lemma split_LFLF_last s :
  split_LFLF (List.last (split_LFLF s) []) = [List.last (split_LFLF s) []].
Proof.
  induction s as [| c | c d s IH1 IH2] using two_step_ind; try reflexivity.
  rewrite split_LFLF_cons2. destruct (_ && _) eqn:Hsep.
  - pose proof (split_LFLF_not_nil s).
    destruct (split_LFLF s) eqn:E; [easy|]. exact IH1.
  - destruct (split_LFLF (d :: s)) as [|p [|q ps]] eqn:E.
    + now apply split_LFLF_not_nil in E.
    + pose proof (split_LFLF_single _ _ E) as ->.
      simpl cons_first. simpl List.last.
      now rewrite split_LFLF_cons2, Hsep, E.
    + exact IH2.
Qed.

(** Splitting is incremental: the pieces closed by a separator in [s] stay
    as they are when more text arrives, and the scan goes on from the
    unfinished piece. *)
Lemma split_LFLF_app s t :
  split_LFLF (s ++ t) =
  List.removelast (split_LFLF s) ++ split_LFLF (List.last (split_LFLF s) [] ++ t).
Proof.
  induction s as [| c | c d s IH1 IH2] using two_step_ind; try reflexivity.
  rewrite <- !app_comm_cons, !split_LFLF_cons2.
  destruct (_ && _) eqn:Hsep.
  - pose proof (split_LFLF_not_nil s).
    rewrite IH1. destruct (split_LFLF s) eqn:E; [easy|]. reflexivity.
  - rewrite app_comm_cons, IH2.
    destruct (split_LFLF (d :: s)) as [|p [|q ps]] eqn:E.
    + now apply split_LFLF_not_nil in E.
    + pose proof (split_LFLF_single _ _ E) as ->. simpl.
      now rewrite Hsep.
    + reflexivity.
Qed.

End JsFacts.

Module TextDecoderFacts.
Import TextDecoder.

(** Decoding in streaming mode does not depend on where the bytes are cut:
    the decoder's state carries an unfinished character over. *)
Lemma decode_app d (a b : list Byte.byte) :
  decode d (a ++ b) =
  let '(d1, out1) := decode d a in
  let '(d2, out2) := decode d1 b in
  (d2, out1 ++ out2).
Proof.
  revert d; induction a as [|x a IH]; intros d; simpl.
  - now destruct (decode d b).
  - destruct (decode_byte d x) as [d1 o1]. rewrite IH.
    destruct (decode d1 a) as [d2 o2], (decode d2 b) as [d3 o3].
    now rewrite app_assoc.
Qed.

End TextDecoderFacts.

Module SseFacts.
Import Js Sse JsFacts TextDecoderFacts.

Section Decoder.
Context {A S : Type}.
Variable JSON_parse : jsstring -> option (StreamEvent A).
Variable onEvent : StreamEvent A -> S -> completion S.

Abbreviation for_chunks := (for_chunks JSON_parse onEvent).
Abbreviation for_body := (for_body JSON_parse onEvent).
Abbreviation read_loop := (read_loop JSON_parse onEvent).

Lemma for_chunks_app (xs ys : list jsstring) (s : S) :
  for_chunks (xs ++ ys) s =
  match for_chunks xs s with
  | Next s' => for_chunks ys s'
  | other => other
  end.
Proof.
  revert s; induction xs as [|x xs IH]; intros s; simpl; [reflexivity|].
  destruct (for_body x s); auto.
Qed.

Lemma removelast_split_app (buffer txt : jsstring) :
  List.removelast (split_LFLF (buffer ++ txt)) =
  List.removelast (split_LFLF buffer) ++
  List.removelast (split_LFLF (List.last (split_LFLF buffer) [] ++ txt)).
Proof.
  rewrite split_LFLF_app. apply removelast_app, split_LFLF_not_nil.
Qed.

(** Reading the values one by one gives what reading all their bytes as a
    single value gives, provided the buffer holds no separator (which the
    loop maintains). *)
Lemma read_loop_concat values : forall decoder buffer ending s,
  split_LFLF buffer = [buffer] ->
  read_loop decoder buffer values ending s =
  read_loop decoder buffer [concat values] ending s.
Proof.
  induction values as [|value later IH]; intros decoder buffer ending s Hbuf.
  - simpl. now rewrite app_nil_r, Hbuf.
  - simpl concat. cbn [Sse.read_loop]. rewrite decode_app.
    destruct (TextDecoder.decode decoder value) as [d1 txt1].
    destruct (TextDecoder.decode d1 (concat later)) as [d2 txt2] eqn:E2.
    rewrite app_assoc, (removelast_split_app (buffer ++ txt1) txt2).
    rewrite for_chunks_app.
    destruct (Sse.for_chunks _ _ _ s) as [s'| |]; try reflexivity.
    rewrite IH by apply split_LFLF_last. cbn [Sse.read_loop]. rewrite E2.
    destruct (Sse.for_chunks _ _ _ s'); reflexivity.
Qed.

(** [streamChat] on a response whose body delivers [values]. *)
Lemma streamChat_concat ok status text values ending s :
  streamChat JSON_parse onEvent
    (resolved (Build_Response ok status (Some (Build_Body values ending)) text)) s =
  streamChat JSON_parse onEvent
    (resolved (Build_Response ok status
                 (Some (Build_Body [concat values] ending)) text)) s.
Proof.
  unfold streamChat; simpl. destruct ok; [|reflexivity].
  now apply read_loop_concat.
Qed.

(** A block that holds the sentinel stops the loop over the blocks. *)
Lemma for_body_DONE block line s :
  find_line block = Some line -> replace_data line = DONE ->
  for_body block s = Stop s.
Proof.
  intros Hline Hdata. unfold Sse.for_body. rewrite Hline, Hdata.
  now replace (eqb DONE DONE) with true by (symmetry; now apply eqb_eq).
Qed.


End Decoder.

Lemma split_LF_single (s : jsstring) :
  Forall (fun c => c <> LF) s -> split_LF s = [s].
Proof.
  induction 1 as [|c s Hc _ IH]; simpl; [reflexivity|].
  apply N.eqb_neq in Hc. now rewrite Hc, IH.
Qed.

Lemma drop_spaces_fixed (s : jsstring) :
  (forall c, hd_error s = Some c -> is_space c = false) -> drop_spaces s = s.
Proof.
  destruct s as [|c s]; simpl; [reflexivity|].
  intros H. now rewrite (H c eq_refl).
Qed.

Lemma trimEnd_fixed (s : jsstring) (c : N) :
  is_space c = false -> trimEnd (s ++ [c]) = s ++ [c].
Proof.
  intros Hc. unfold trimEnd. rewrite rev_app_distr. simpl.
  rewrite Hc. simpl. now rewrite rev_involutive.
Qed.

Lemma replace_data_spaces (spaces payload : jsstring) :
  Forall (fun c => is_space c = true) spaces ->
  (forall c, hd_error payload = Some c -> is_space c = false) ->
  replace_data (data_prefix ++ spaces ++ payload) = payload.
Proof.
  intros Hsp Hpay. unfold replace_data.
  rewrite startsWith_app, skipn_app, skipn_all, Nat.sub_diag.
  rewrite skipn_O, app_nil_l, drop_spaces_app by assumption.
  now apply drop_spaces_fixed.
Qed.


(** C2, as stated, fails: on the line [data:  [DONE]] with two spaces the
    payload is the sentinel itself, not the sentinel after a space, and the
    block ends the stream without any event. *)
Lemma one_space_only_counterexample :
  replace_data (lit "data:  [DONE]") <> lit " [DONE]" /\
  replace_data (lit "data:  [DONE]") = DONE /\
  events (Fixtures.parse_table Fixtures.tokens_table)
    (Fixtures.delivers
       [Fixtures.bytes "data:  [DONE]" ++ Fixtures.blank ++
        Fixtures.bytes "data: T1" ++ Fixtures.blank]) = Returned [].
Proof.
  split; [intros H; vm_compute in H; discriminate|].
  split; vm_compute; reflexivity.
Qed.

(** C2, amended: the prefix [data:] is removed together with all the white
    space that follows it, however long; so a block whose data line is the
    prefix, any run of white space without a line feed, and the sentinel,
    ends the stream. *)
Theorem data_prefix_strips_all_spaces {A S}
    (JSON_parse : jsstring -> option (StreamEvent A))
    (onEvent : StreamEvent A -> S -> completion S)
    (spaces payload : jsstring) :
  Forall (fun c => is_space c = true) spaces ->
  (forall c, hd_error payload = Some c -> is_space c = false) ->
  replace_data (data_prefix ++ spaces ++ payload) = payload /\
  (payload = DONE -> Forall (fun c => c <> LF) spaces ->
   forall s, for_body JSON_parse onEvent (data_prefix ++ spaces ++ payload) s
             = Stop s).
Proof.
  intros Hsp Hpay. split; [now apply replace_data_spaces|].
  intros -> Hlf s.
  apply for_body_DONE with (line := data_prefix ++ spaces ++ DONE);
    [|now apply replace_data_spaces].
  assert (Htrim : trimEnd (data_prefix ++ spaces ++ DONE)
                  = data_prefix ++ spaces ++ DONE).
  { change DONE with (lit "[DONE" ++ [93]).
    rewrite !app_assoc. now apply trimEnd_fixed. }
  unfold find_line. rewrite split_LF_single.
  - cbn [List.map List.find]. now rewrite Htrim, startsWith_app.
  - repeat (apply Forall_app; split); try assumption;
      repeat constructor; discriminate.
Qed.

Lemma data_prefix_strips_all_spaces_witness :
  Forall (fun c => is_space c = true) [32; 9; 32] /\
  (forall c, hd_error DONE = Some c -> is_space c = false) /\
  replace_data (data_prefix ++ [32; 9; 32] ++ DONE) = DONE.
Proof.
  assert (H1 : Forall (fun c => is_space c = true) [32; 9; 32])
    by (repeat constructor).
  assert (H2 : forall c, hd_error DONE = Some c -> is_space c = false)
    by (intros c [= <-]; reflexivity).
  split; [exact H1|]. split; [exact H2|].
  exact (proj1 (data_prefix_strips_all_spaces
                  (Fixtures.parse_table Fixtures.tokens_table) record_event
                  [32; 9; 32] DONE H1 H2)).
Defined.

(** C3: the events handed to the callback, and more generally what
    [streamChat] does with any callback from any state, depend on the
    bytes of the body only, not on how they are cut into values. *)
Theorem chunk_boundary_independence {A}
    (JSON_parse : jsstring -> option (StreamEvent A))
    (values1 values2 : list (list Byte.byte))
    (ok : bool) (status : N) (text : option jsstring) (ending : ReadEnd) :
  concat values1 = concat values2 ->
  let net1 := resolved (Build_Response ok status
                          (Some (Build_Body values1 ending)) text) in
  let net2 := resolved (Build_Response ok status
                          (Some (Build_Body values2 ending)) text) in
  events JSON_parse net1 = events JSON_parse net2 /\
  forall S (onEvent : StreamEvent A -> S -> completion S) (s : S),
    streamChat JSON_parse onEvent net1 s = streamChat JSON_parse onEvent net2 s.
Proof.
  intros Hbytes net1 net2.
  assert (H : forall S (onEvent : StreamEvent A -> S -> completion S) s,
             streamChat JSON_parse onEvent net1 s
             = streamChat JSON_parse onEvent net2 s).
  { intros S onEvent s. unfold net1, net2.
    rewrite (streamChat_concat _ _ _ _ _ values1).
    rewrite (streamChat_concat _ _ _ _ _ values2).
    now rewrite Hbytes. }
  split; [apply H | exact H].
Qed.

Lemma chunk_boundary_independence_witness :
  concat Fixtures.stream_whole = concat Fixtures.stream_cut /\
  events (Fixtures.parse_table Fixtures.tokens_table)
    (Fixtures.delivers Fixtures.stream_whole) =
  events (Fixtures.parse_table Fixtures.tokens_table)
    (Fixtures.delivers Fixtures.stream_cut).
Proof.
  split; [reflexivity|].
  exact (proj1 (chunk_boundary_independence
                  (Fixtures.parse_table Fixtures.tokens_table)
                  Fixtures.stream_whole Fixtures.stream_cut
                  true 200 None done eq_refl)).
Defined.

(** The stream of the example, cut or whole, gives the three tokens. *)
Example events_stream_cut :
  events (Fixtures.parse_table Fixtures.tokens_table)
    (Fixtures.delivers Fixtures.stream_cut)
  = Returned [token (lit "He"); token (lit "llo"); token [233]].
Proof. vm_compute. reflexivity. Qed.


(** C4: when, among the blocks split off after reading a value, one holds
    the sentinel, [streamChat]'s loop returns in the state reached by the
    blocks before it: the callback is not called again, whatever blocks
    follow in the same value, whatever is left in the buffer, and whatever
    the stream would still deliver (even a read that throws). *)
Theorem sentinel_precedence {A S}
    (JSON_parse : jsstring -> option (StreamEvent A))
    (onEvent : StreamEvent A -> S -> completion S)
    (decoder : TextDecoder.t) (buffer : jsstring)
    (value : list Byte.byte) (later : list (list Byte.byte))
    (ending : ReadEnd) (s s' : S)
    (before after : list jsstring) (block line : jsstring) :
  List.removelast
    (split_LFLF (buffer ++ snd (TextDecoder.decode decoder value)))
    = before ++ block :: after ->
  for_chunks JSON_parse onEvent before s = Next s' ->
  find_line block = Some line ->
  replace_data line = DONE ->
  read_loop JSON_parse onEvent decoder buffer (value :: later) ending s
    = Returned s'.
Proof.
  intros Hsplit Hbefore Hline Hdata. cbn [read_loop].
  destruct (TextDecoder.decode decoder value) as [d txt]. simpl in Hsplit.
  rewrite Hsplit, for_chunks_app, Hbefore. cbn [for_chunks].
  now rewrite (for_body_DONE _ _ _ _ _ Hline Hdata).
Qed.

Lemma sentinel_precedence_witness :
  read_loop (Fixtures.parse_table Fixtures.tokens_table) record_event
    TextDecoder.init []
    (Fixtures.value_past_DONE :: Fixtures.values_after_DONE)
    (read_throws (Build_Exn [] []))
    []
  = Returned [token (lit "He")].
Proof.
  apply (sentinel_precedence _ _ _ _ _ _ _ _ _
           [lit "data: T1"] [lit "data: T2"]
           (lit "data: [DONE]") (lit "data: [DONE]"));
    vm_compute; reflexivity.
Defined.



(** The malformed block of the example costs one error event and nothing
    else. *)
Example events_stream_malformed :
  events (Fixtures.parse_table Fixtures.tokens_table)
    (Fixtures.delivers Fixtures.stream_malformed)
  = Returned [token (lit "He"); error bad_payload; token (lit "llo")].
Proof. vm_compute. reflexivity. Qed.


(** *** A callback that does not throw

    When the callback always returns, [streamChat] folds it over the
    recorded events. *)
Section Fold.
Context {A S : Type}.
Variable JSON_parse : jsstring -> option (StreamEvent A).
Variable f : StreamEvent A -> S -> S.
Variable s0 : S.

Local Abbreviation run := (fun tr => fold_left (fun s ev => f ev s) tr s0).
Local Abbreviation cb := (fun ev s => Returned (f ev s)).

Lemma for_body_fold chunk tr :
  for_body JSON_parse cb chunk (run tr) =
  match for_body JSON_parse record_event chunk tr with
  | Next t => Next (run t)
  | Stop t => Stop (run t)
  | Raise e t => Raise e (run t)
  end.
Proof.
  unfold for_body, on_catch, record_event.
  destruct (find_line chunk) as [line|]; [|reflexivity].
  destruct (eqb _ DONE); [reflexivity|].
  destruct (JSON_parse _) as [obj|]; now rewrite fold_left_app.
Qed.

Lemma for_chunks_fold chunks : forall tr,
  for_chunks JSON_parse cb chunks (run tr) =
  match for_chunks JSON_parse record_event chunks tr with
  | Next t => Next (run t)
  | Stop t => Stop (run t)
  | Raise e t => Raise e (run t)
  end.
Proof.
  induction chunks as [|chunk rest IH]; intros tr; [reflexivity|].
  cbn [for_chunks]. rewrite for_body_fold.
  destruct (for_body JSON_parse record_event chunk tr); auto.
Qed.

Lemma read_loop_fold values : forall decoder buffer ending tr,
  read_loop JSON_parse cb decoder buffer values ending (run tr) =
  match read_loop JSON_parse record_event decoder buffer values ending tr with
  | Returned t => Returned (run t)
  | Threw e t => Threw e (run t)
  end.
Proof.
  induction values as [|value later IH]; intros decoder buffer ending tr.
  - now destruct ending.
  - cbn [read_loop]. destruct (TextDecoder.decode decoder value) as [d txt].
    rewrite for_chunks_fold.
    destruct (for_chunks JSON_parse record_event _ tr); auto.
Qed.

Lemma streamChat_fold net :
  streamChat JSON_parse cb net s0 =
  match events JSON_parse net with
  | Returned t => Returned (run t)
  | Threw e t => Threw e (run t)
  end.
Proof.
  unfold events, streamChat. destruct net as [e|res]; [reflexivity|].
  destruct (ok res), (body res) as [b|]; try reflexivity.
  apply (read_loop_fold _ _ _ _ []).
Qed.

End Fold.

End SseFacts.

Module ChatFacts.
Import Js Sse Chat JsFacts SseFacts.

Section Page.
Variable uuid_value : nat -> jsstring.
Variable JSON_stringify : JsValue -> jsstring.
Variable JSON_parse : jsstring -> option (StreamEvent ChatMsg.t).

Local Abbreviation attachToolResult := (attachToolResult uuid_value JSON_stringify).
Local Abbreviation on_event := (on_event uuid_value JSON_stringify).
Local Abbreviation display := (display JSON_stringify).

(** The new value of an entry that receives a tool result. *)
Local Abbreviation with_result toolCallId result msg :=
  (UiMessage.set_toolResults
     (Some (JsObject.set toolCallId result
              (default ∅ (UiMessage.toolResults msg))))
     msg).

Lemma modify_Some a f st m :
  heap st !! a = Some m ->
  modify a f st = set_heap (<[a := f m]> (heap st)) st.
Proof. intros H. unfold modify. now rewrite H. Qed.

Lemma modify_lookup a f st m :
  heap st !! a = Some m -> heap (modify a f st) !! a = Some (f m).
Proof.
  intros H. rewrite (modify_Some _ _ _ _ H). simpl.
  apply list_lookup_insert_eq. now apply lookup_lt_Some in H.
Qed.

Lemma some_id_spec toolCallId calls :
  some_id toolCallId calls = true <->
  exists tc, In tc calls /\ ToolCall.id tc = toolCallId.
Proof.
  unfold some_id. rewrite existsb_exists.
  split; intros [tc [Hin H]]; exists tc; split; auto; now apply eqb_eq.
Qed.

(** The tests of the loop decide [lists_call]. *)
Lemma holds_call_spec toolCallId msg :
  holds_call toolCallId msg = true <-> lists_call toolCallId msg.
Proof.
  unfold holds_call, lists_call. rewrite andb_true_iff. split.
  - intros [Hrole Hcalls]. split.
    + now destruct (UiMessage.role msg).
    + destruct (UiMessage.toolCalls msg) as [[|tc calls]|]; try discriminate.
      apply some_id_spec in Hcalls as [tc' [Hin Hid]].
      now exists (tc :: calls), tc'.
  - intros [Hrole (calls & tc & Hcalls & Hin & Hid)]. rewrite Hrole, Hcalls.
    split; [reflexivity|].
    destruct calls as [|tc0 calls]; [easy|].
    apply some_id_spec. now exists tc.
Qed.

Lemma holds_call_false toolCallId msg :
  holds_call toolCallId msg = false <-> ~ lists_call toolCallId msg.
Proof.
  rewrite <- holds_call_spec. now destruct (holds_call toolCallId msg).
Qed.

(** The loop stops at the first address, in the order scanned, whose
    object lists the call; it gives nothing when there is none. *)
Lemma attach_loop_spec toolCallId result downwards st :
  match attach_loop toolCallId result downwards st with
  | Some st' =>
      exists newer a older msg,
        downwards = newer ++ a :: older /\
        heap st !! a = Some msg /\ lists_call toolCallId msg /\
        (forall a' msg', In a' newer -> heap st !! a' = Some msg' ->
                         ~ lists_call toolCallId msg') /\
        st' = set_heap (<[a := with_result toolCallId result msg]> (heap st)) st
  | None =>
      forall a' msg', In a' downwards -> heap st !! a' = Some msg' ->
                      ~ lists_call toolCallId msg'
  end.
Proof.
  induction downwards as [|a below IH]; simpl.
  - intros _ _ [].
  - assert (Hstep : forall st',
      attach_loop toolCallId result below st = Some st' ->
      (forall msg', heap st !! a = Some msg' -> ~ lists_call toolCallId msg') ->
      exists newer b older msg,
        a :: below = newer ++ b :: older /\
        heap st !! b = Some msg /\ lists_call toolCallId msg /\
        (forall a' msg', In a' newer -> heap st !! a' = Some msg' ->
                         ~ lists_call toolCallId msg') /\
        st' = set_heap (<[b := with_result toolCallId result msg]> (heap st)) st).
    { intros st' E Hskip. rewrite E in IH.
      destruct IH as (newer & b & older & m & -> & Hb & Hm & Hnewer & ->).
      exists (a :: newer), b, older, m.
      split; [reflexivity|]. split; [exact Hb|]. split; [exact Hm|].
      split; [|reflexivity].
      intros a' msg' [<-|Hin] Hl;
        [exact (Hskip msg' Hl) | exact (Hnewer a' msg' Hin Hl)]. }
    assert (Hnone : attach_loop toolCallId result below st = None ->
      (forall msg', heap st !! a = Some msg' -> ~ lists_call toolCallId msg') ->
      forall a' msg', In a' (a :: below) -> heap st !! a' = Some msg' ->
                      ~ lists_call toolCallId msg').
    { intros E Hskip a' msg' [<-|Hin] Hl; [exact (Hskip msg' Hl)|].
      rewrite E in IH. exact (IH a' msg' Hin Hl). }
    destruct (heap st !! a) as [msg|] eqn:Ha.
    + destruct (holds_call toolCallId msg) eqn:Hh.
      * exists [], a, below, msg.
        split; [reflexivity|]. split; [exact Ha|].
        split; [now apply holds_call_spec|].
        split; [intros ? ? []|].
        exact (modify_Some a (fun m => with_result toolCallId result m) st msg Ha).
      * assert (Hskip : forall msg', Some msg = Some msg' ->
                                     ~ lists_call toolCallId msg')
          by (intros msg' [= <-]; now apply holds_call_false).
        destruct (attach_loop toolCallId result below st) as [st'|];
          [now apply Hstep | now apply Hnone].
    + destruct (attach_loop toolCallId result below st) as [st'|];
        [now apply Hstep | now apply Hnone].
Qed.

(** The two ways [attachToolResult] can go. *)
Lemma attachToolResult_cases (toolCallId : jsstring) (result : JsValue)
    (st : State) :
  (exists older a newer msg,
     messages st = older ++ a :: newer /\
     heap st !! a = Some msg /\ lists_call toolCallId msg /\
     (forall a' msg', In a' newer -> heap st !! a' = Some msg' ->
                      ~ lists_call toolCallId msg') /\
     attachToolResult toolCallId result st =
       set_heap (<[a := with_result toolCallId result msg]> (heap st)) st)
  \/
  ((forall a' msg', In a' (messages st) -> heap st !! a' = Some msg' ->
                    ~ lists_call toolCallId msg') /\
   attachToolResult toolCallId result st =
     mkState
       (heap st ++ [UiMessage.mk (uuid_value (uuids st)) tool (display result)
                      None None None])
       (messages st ++ [length (heap st)])
       (input st) (loading st) (Datatypes.S (uuids st))).
Proof.
  unfold Chat.attachToolResult.
  pose proof (attach_loop_spec toolCallId result (rev (messages st)) st) as H.
  destruct (attach_loop toolCallId result (rev (messages st)) st) as [st'|].
  - left. destruct H as (newer & a & older & msg & Hrev & Ha & Hm & Hn & ->).
    exists (rev older), a, (rev newer), msg.
    split; [|split; [exact Ha|split; [exact Hm|split; [|reflexivity]]]].
    + rewrite <- (rev_involutive (messages st)), Hrev, rev_app_distr. simpl.
      now rewrite <- app_assoc.
    + intros a' msg' Hin. apply Hn. now apply in_rev.
  - right. split; [|reflexivity].
    intros a' msg' Hin. apply H. now apply in_rev in Hin.
Qed.


(** Tokens append to the object at the placeholder's address, in order. *)
Lemma tokens_append (aiPlaceholder : nat) (cs : list jsstring) :
  forall (st : State) (entry : UiMessage.t),
  heap st !! aiPlaceholder = Some entry ->
  heap (fold_left (fun s c => on_event aiPlaceholder (token c) s) cs st)
    !! aiPlaceholder
  = Some (UiMessage.set_content (UiMessage.content entry ++ concat cs) entry).
Proof.
  induction cs as [|c cs IH]; intros st entry Hentry; simpl.
  - rewrite app_nil_r. now destruct entry.
  - rewrite (IH _ (append_content c entry)) by now apply modify_lookup.
    simpl. now rewrite app_assoc.
Qed.

Lemma send_begin_placeholder text st :
  exists st1,
    send_begin uuid_value text st = (Datatypes.S (length (heap st)), st1) /\
    heap st1 =
      heap st ++
      [UiMessage.mk (uuid_value (uuids st)) human text None None None;
       UiMessage.mk (uuid_value (Datatypes.S (uuids st))) ai [] None (Some [])
         (Some ∅)] /\
    messages st1 =
      messages st ++ [length (heap st); Datatypes.S (length (heap st))] /\
    loading st1 = true /\ input st1 = [] /\
    uuids st1 = Datatypes.S (Datatypes.S (uuids st)).
Proof.
  eexists. unfold send_begin, push, alloc, uuid; simpl.
  rewrite length_app, Nat.add_comm. simpl.
  split; [reflexivity|]. simpl.
  now rewrite <- !app_assoc.
Qed.

Lemma send_accepted net st :
  nonempty (trim (input st)) = true -> loading st = false ->
  send uuid_value JSON_stringify JSON_parse net st =
  let '(aiPlaceholder, st1) := send_begin uuid_value (trim (input st)) st in
  send_finally (send_try uuid_value JSON_stringify JSON_parse aiPlaceholder net st1).
Proof. intros Ht Hl. unfold send. now rewrite Ht, Hl. Qed.

(** C7: the tokens of one send end up concatenated, in the order of
    arrival, in the placeholder that the send created empty: after any
    run of token events from the state where the send starts streaming,
    and in particular after a whole [send] whose stream consists of these
    tokens. *)
Theorem token_accumulation_order (net : Fetch) (st : State)
    (cs : list jsstring) :
  nonempty (trim (input st)) = true -> loading st = false ->
  let aiPlaceholder := Datatypes.S (length (heap st)) in
  let st1 := snd (send_begin uuid_value (trim (input st)) st) in
  let filled :=
    UiMessage.mk (uuid_value (Datatypes.S (uuids st))) ai (concat cs) None
      (Some []) (Some ∅) in
  heap (fold_left (fun s c => on_event aiPlaceholder (token c) s) cs st1)
    !! aiPlaceholder = Some filled /\
  (events JSON_parse net = Returned (List.map token cs) ->
   heap (send uuid_value JSON_stringify JSON_parse net st) !! aiPlaceholder
   = Some filled).
Proof.
  intros Ht Hl aiPlaceholder st1 filled.
  destruct (send_begin_placeholder (trim (input st)) st)
    as (st1' & Hbegin & Hheap & _).
  assert (Hst1 : st1 = st1') by (unfold st1; now rewrite Hbegin).
  assert (Hentry : heap st1 !! aiPlaceholder =
                   Some (UiMessage.mk (uuid_value (Datatypes.S (uuids st))) ai
                           [] None (Some []) (Some ∅))).
  { rewrite Hst1, Hheap. rewrite lookup_app_r by (unfold aiPlaceholder; lia).
    unfold aiPlaceholder. now replace (_ - _)%nat with 1%nat by lia. }
  assert (Hfold : heap (fold_left (fun s c => on_event aiPlaceholder (token c) s)
                          cs st1) !! aiPlaceholder = Some filled)
    by (rewrite (tokens_append _ _ _ _ Hentry); reflexivity).
  split; [exact Hfold|].
  intros Hev. rewrite send_accepted by assumption. rewrite Hbegin.
  unfold send_finally, send_try.
  rewrite (streamChat_fold JSON_parse (on_event (Datatypes.S (length (heap st))))), Hev. simpl.
  rewrite <- Hst1. fold aiPlaceholder.
  rewrite <- Hfold. f_equal. f_equal.
  clear. generalize st1. induction cs as [|c cs IH]; intros s; simpl; auto.
Qed.

(** C10: a streamed message of role [human], or of role [tool] without a
    (non-empty) [tool_call_id], changes nothing at all. *)
Theorem other_messages_change_nothing (aiPlaceholder : nat) (m : ChatMsg.t)
    (st : State) :
  ChatMsg.type m = human \/
  (ChatMsg.type m = tool /\
   (ChatMsg.tool_call_id m = None \/ ChatMsg.tool_call_id m = Some [])) ->
  on_event aiPlaceholder (message m) st = st.
Proof.
  unfold Chat.on_event, on_message, tool_result_id.
  intros [-> | [-> [-> | ->]]]; reflexivity.
Qed.

(** *** What the callback leaves alone *)

Lemma loading_modify a f st : loading (modify a f st) = loading st.
Proof. unfold modify. now destruct (heap st !! a). Qed.

Lemma loading_attachToolResult toolCallId result st :
  loading (attachToolResult toolCallId result st) = loading st.
Proof.
  destruct (attachToolResult_cases toolCallId result st)
    as [(? & ? & ? & ? & _ & _ & _ & _ & ->) | [_ ->]]; reflexivity.
Qed.

Lemma loading_on_event aiPlaceholder ev st :
  loading (on_event aiPlaceholder ev st) = loading st.
Proof.
  destruct ev as [c | m | c]; simpl; try apply loading_modify.
  unfold on_message.
  destruct (Role_eqb (ChatMsg.type m) custom); simpl;
    (destruct (tool_result_id m); [rewrite loading_attachToolResult|]);
    destruct (Role_eqb (ChatMsg.type m) ai);
    try rewrite loading_modify; reflexivity.
Qed.

Local Abbreviation is_ai := (fun m => Role_eqb (UiMessage.role m) ai).

Lemma filter_insert_same (h : list UiMessage.t) : forall a m m',
  h !! a = Some m -> UiMessage.role m' = UiMessage.role m ->
  length (List.filter is_ai (<[a := m']> h)) = length (List.filter is_ai h).
Proof.
  induction h as [|x h IH]; intros [|a] m m' Hl Hrole; try discriminate.
  - simpl in Hl. injection Hl as ->. simpl. rewrite Hrole.
    now destruct (Role_eqb (UiMessage.role m) ai).
  - simpl in *. destruct (Role_eqb (UiMessage.role x) ai); simpl;
      now rewrite (IH a m m').
Qed.

Lemma ai_objects_modify a f st :
  (forall m, UiMessage.role (f m) = UiMessage.role m) ->
  ai_objects (modify a f st) = ai_objects st.
Proof.
  intros Hf. unfold modify, ai_objects.
  destruct (heap st !! a) as [m|] eqn:E; [|reflexivity].
  simpl. now apply filter_insert_same with (m := m).
Qed.

Lemma ai_objects_attachToolResult toolCallId result st :
  ai_objects (attachToolResult toolCallId result st) = ai_objects st.
Proof.
  destruct (attachToolResult_cases toolCallId result st)
    as [(? & a & ? & msg & _ & Ha & _ & _ & ->) | [_ ->]]; unfold ai_objects.
  - simpl. now apply filter_insert_same with (m := msg).
  - simpl. rewrite List.filter_app, length_app. simpl. lia.
Qed.

Lemma ai_objects_on_event aiPlaceholder ev st :
  ai_objects (on_event aiPlaceholder ev st) = ai_objects st.
Proof.
  destruct ev as [c | m | c]; simpl; try (now apply ai_objects_modify).
  unfold on_message.
  assert (Hfirst : ai_objects
            (if Role_eqb (ChatMsg.type m) ai
             then modify aiPlaceholder (on_ai JSON_stringify m) st else st)
          = ai_objects st).
  { destruct (Role_eqb (ChatMsg.type m) ai); [|reflexivity].
    apply ai_objects_modify. intros entry. unfold on_ai.
    destruct (ChatMsg.content m) as [| b | bits | s | items | fields]; simpl;
      try destruct b; try destruct (number_truthy bits);
      try destruct (nonempty s); reflexivity. }
  set (st1 := if Role_eqb (ChatMsg.type m) ai then _ else st) in *.
  assert (Hsecond : ai_objects
            (match tool_result_id m with
             | Some i => attachToolResult i (ChatMsg.content m) st1
             | None => st1
             end) = ai_objects st).
  { destruct (tool_result_id m); [rewrite ai_objects_attachToolResult|];
      exact Hfirst. }
  set (st2 := match tool_result_id m with Some _ => _ | None => _ end) in *.
  destruct (Role_eqb (ChatMsg.type m) custom); [|exact Hsecond].
  rewrite <- Hsecond. unfold ai_objects; simpl.
  rewrite List.filter_app, length_app. simpl. lia.
Qed.

(** C9: an accepted send sets the busy flag and creates the one [ai]
    placeholder before it streams; no event touches the flag or creates
    another [ai] entry; whatever the network does, the send ends in the
    final step, which clears the flag; and when opening or reading the
    stream throws, the error's text is appended to the placeholder and the
    send still ends normally. *)
Theorem busy_flag_symmetry (net : Fetch) (st : State) :
  nonempty (trim (input st)) = true -> loading st = false ->
  let aiPlaceholder := Datatypes.S (length (heap st)) in
  let st1 := snd (send_begin uuid_value (trim (input st)) st) in
  let callback := fun ev s => Returned (on_event aiPlaceholder ev s) in
  (* before the stream *)
  fst (send_begin uuid_value (trim (input st)) st) = aiPlaceholder /\
  loading st1 = true /\
  messages st1 = messages st ++ [length (heap st); aiPlaceholder] /\
  heap st1 !! aiPlaceholder =
    Some (UiMessage.mk (uuid_value (Datatypes.S (uuids st))) ai [] None
            (Some []) (Some ∅)) /\
  ai_objects st1 = Datatypes.S (ai_objects st) /\
  (* during the stream *)
  (forall ev s,
     loading (on_event aiPlaceholder ev s) = loading s /\
     ai_objects (on_event aiPlaceholder ev s) = ai_objects s) /\
  (* after it *)
  send uuid_value JSON_stringify JSON_parse net st =
    send_finally
      (send_try uuid_value JSON_stringify JSON_parse aiPlaceholder net st1) /\
  loading (send uuid_value JSON_stringify JSON_parse net st) = false /\
  (forall s', streamChat JSON_parse callback net st1 = Returned s' ->
     send uuid_value JSON_stringify JSON_parse net st = set_loading false s') /\
  (forall e s', streamChat JSON_parse callback net st1 = Threw e s' ->
     send uuid_value JSON_stringify JSON_parse net st =
     set_loading false
       (modify aiPlaceholder (append_content (failure_notice e)) s')).
Proof.
  intros Ht Hl aiPlaceholder st1 callback.
  destruct (send_begin_placeholder (trim (input st)) st)
    as (st1' & Hbegin & Hheap & Hmsgs & Hload & _).
  assert (Hst1 : st1 = st1') by (unfold st1; now rewrite Hbegin).
  assert (Hsend : send uuid_value JSON_stringify JSON_parse net st =
                  send_finally (send_try uuid_value JSON_stringify JSON_parse
                                  aiPlaceholder net st1)).
  { rewrite send_accepted by assumption. now rewrite Hbegin, Hst1. }
  split; [now rewrite Hbegin|]. split; [now rewrite Hst1|].
  split; [now rewrite Hst1|]. split.
  { rewrite Hst1, Hheap. rewrite lookup_app_r by (unfold aiPlaceholder; lia).
    unfold aiPlaceholder. now replace (_ - _)%nat with 1%nat by lia. }
  split.
  { unfold ai_objects. rewrite Hst1, Hheap, List.filter_app, length_app.
    simpl. lia. }
  split; [intros ev s; split;
          [apply loading_on_event | apply ai_objects_on_event]|].
  split; [exact Hsend|]. split; [now rewrite Hsend|].
  split; intros; rewrite Hsend; unfold send_finally, send_try;
    fold callback; now rewrite H.
Qed.

(** *** [loadHistory]

    The entries that [loadHistory] collects in its local array are not in
    [messages.value] while the loop runs, so [attachToolResult], which
    looks at [messages.value], never reaches them. *)

Lemma attachToolResult_frame toolCallId result st :
  well_formed st ->
  let st' := attachToolResult toolCallId result st in
  well_formed st' /\
  (length (heap st) <= length (heap st'))%nat /\
  (forall b, (b < length (heap st))%nat -> ~ In b (messages st) ->
     ~ In b (messages st') /\ heap st' !! b = heap st !! b).
Proof.
  intros Hwf st'. unfold well_formed in *.
  destruct (attachToolResult_cases toolCallId result st)
    as [(older & a & newer & msg & Hm & Ha & _ & _ & E) | [_ E]];
    unfold st'; rewrite E; clear E st'; simpl.
  - rewrite length_insert. split; [exact Hwf|]. split; [lia|].
    intros b Hb Hnot. split; [exact Hnot|].
    apply list_lookup_insert_ne. intros <-. apply Hnot.
    rewrite Hm. apply in_or_app. right. now left.
  - rewrite length_app. simpl. split; [|split; [lia|]].
    + apply Forall_app. split.
      * eapply Forall_impl; [exact Hwf|]. simpl. intros; lia.
      * repeat constructor. lia.
    + intros b Hb Hnot. split.
      * intros Hin. apply in_app_or in Hin as [Hin|[<-|[]]]; [tauto|lia].
      * now apply lookup_app_l.
Qed.

Lemma history_loop_spec ms : forall ui st,
  well_formed st -> apart ui st ->
  exists new st',
    history_loop uuid_value JSON_stringify ms ui st = (ui ++ new, st') /\
    well_formed st' /\ apart (ui ++ new) st' /\
    (forall b, In b ui -> heap st' !! b = heap st !! b) /\
    Forall2 (fun m a =>
               exists i, heap st' !! a =
                 Some (UiMessage.mk i (ChatMsg.type m)
                         (display (ChatMsg.content m)) (ChatMsg.run_id m)
                         (ChatMsg.tool_calls m) (Some ∅)))
            ms new.
Proof.
  unfold apart. induction ms as [|m rest IH]; intros ui st Hwf Hui.
  - exists [], st. rewrite app_nil_r. simpl. repeat split; auto.
  - cbn [history_loop]. unfold toUiMessage, uuid, alloc.
    change (heap (set_uuids (Datatypes.S (uuids st)) st)) with (heap st).
    set (u := length (heap st)).
    set (entry := UiMessage.mk _ _ _ _ _ _).
    set (st1 := set_heap (heap st ++ [entry]) _).
    assert (Hlen1 : length (heap st1) = Datatypes.S u)
      by (unfold st1; simpl; rewrite length_app; simpl; unfold u; lia).
    assert (Hwf1 : well_formed st1).
    { unfold well_formed in *. rewrite Hlen1.
      eapply Forall_impl; [exact Hwf|]. unfold u. intros; simpl in *; lia. }
    assert (Hui1 : apart (ui ++ [u]) st1).
    { unfold apart. apply Forall_app. split.
      - eapply Forall_impl; [exact Hui|].
        intros b [Hb Hnot]. split; [rewrite Hlen1; unfold u; lia|exact Hnot].
      - repeat constructor; [lia|]. simpl. intros Hin.
        unfold well_formed in Hwf. rewrite List.Forall_forall in Hwf.
        apply Hwf in Hin. unfold u in Hin. lia. }
    assert (Hentry : heap st1 !! u = Some entry).
    { unfold st1; simpl. rewrite lookup_app_r by (unfold u; lia).
      unfold u. now rewrite Nat.sub_diag. }
    set (st2 := match tool_result_id m with
                | Some i => attachToolResult i (ChatMsg.content m) st1
                | None => st1
                end).
    assert (Hstep : well_formed st2 /\
                    (length (heap st1) <= length (heap st2))%nat /\
                    (forall b, (b < length (heap st1))%nat ->
                       ~ In b (messages st1) ->
                       ~ In b (messages st2) /\ heap st2 !! b = heap st1 !! b)).
    { unfold st2. destruct (tool_result_id m) as [i|].
      - now apply attachToolResult_frame.
      - split; [exact Hwf1|]. split; [lia|]. now intros. }
    destruct Hstep as (Hwf2 & Hlen2 & Hframe).
    unfold apart in Hui1.
    assert (Hui2 : apart (ui ++ [u]) st2).
    { unfold apart. eapply Forall_impl; [exact Hui1|]. intros b [Hb Hnot].
      split; [lia|]. now apply Hframe. }
    destruct (IH (ui ++ [u]) st2 Hwf2 Hui2)
      as (new & st' & Hloop & Hwf' & Hui' & Hkeep & Hnew).
    exists (u :: new), st'.
    replace (ui ++ u :: new) with ((ui ++ [u]) ++ new)
      by now rewrite <- app_assoc.
    split; [exact Hloop|]. split; [exact Hwf'|]. split; [exact Hui'|].
    assert (Hold : forall b, In b (ui ++ [u]) ->
                     heap st' !! b = heap st1 !! b).
    { intros b Hb. rewrite Hkeep by exact Hb.
      rewrite List.Forall_forall in Hui1. destruct (Hui1 b Hb) as [Hlt Hnot].
      now apply Hframe. }
    split.
    + intros b Hb. rewrite Hold by (apply in_or_app; now left).
      unfold st1; simpl. apply lookup_app_l.
      rewrite List.Forall_forall in Hui. now apply Hui.
    + constructor; [|exact Hnew].
      exists (uuid_value (uuids st)).
      rewrite Hold by (apply in_or_app; right; now left). exact Hentry.
Qed.

(** On a well-formed page, the transcript after any history load has one
    entry per historical message, in order, built by [toUiMessage] alone:
    every [toolResults] is empty, whatever tool results the history
    holds. *)
Lemma loadHistory_entries (history : list ChatMsg.t) (st : State) :
  well_formed st ->
  Forall2 (fun m e =>
             exists i, e = Some (UiMessage.mk i (ChatMsg.type m)
                                   (display (ChatMsg.content m))
                                   (ChatMsg.run_id m) (ChatMsg.tool_calls m)
                                   (Some ∅)))
          history
          (transcript (loadHistory uuid_value JSON_stringify (Some history) st)).
Proof.
  intros Hwf.
  destruct (history_loop_spec history [] st Hwf (Forall_nil_2 _))
    as (new & st' & Hloop & _ & _ & _ & Hnew).
  unfold loadHistory, transcript. simpl default. rewrite Hloop. simpl.
  clear Hloop. induction Hnew as [|m a ms new [i Hi] _ IH]; simpl.
  - constructor.
  - constructor; [now exists i | exact IH].
Qed.

(** C1 fails on the code: with an assistant turn that calls tools [a] and
    [b] and then the result of [b] in the history, the loaded transcript
    has the three entries, and the assistant entry's [toolResults] is
    empty.  The attachment step looked at the transcript of before the
    load, which is replaced when the load ends. *)
Theorem history_result_not_attached :
  transcript (loadHistory uuid_value JSON_stringify
                (Some Fixtures.history_with_result) (Fixtures.fresh_page []))
  = [ Some (UiMessage.mk (uuid_value 0) human (lit "hi") None None (Some ∅));
      Some (UiMessage.mk (uuid_value 1) ai [] (Some (lit "run-1"))
              (Some [Fixtures.call_a; Fixtures.call_b]) (Some ∅));
      Some (UiMessage.mk (uuid_value 2) tool (lit "42") None None (Some ∅)) ].
Proof. reflexivity. Qed.

End Page.

(** C6 fails on the code for the id [__proto__].  The placeholder lists a
    call of that id, so the loop of [attachToolResult] stops at it; the
    assignment then runs the setter inherited from [Object.prototype],
    which ignores a string, and the function returns: the result is stored
    nowhere and no entry is appended.  The page is exactly as before. *)
Theorem proto_result_is_dropped :
  (exists entry,
     heap Cases.page_with_proto_call !! 1%nat = Some entry /\
     lists_call JsObject.proto_key entry) /\
  Chat.attachToolResult Fixtures.uuid_value Fixtures.stringify
    JsObject.proto_key (JString (lit "42")) Cases.page_with_proto_call
  = Cases.page_with_proto_call.
Proof.
  split; [|reflexivity].
  eexists. split; [reflexivity|]. split; [reflexivity|].
  exists [Cases.call_proto], Cases.call_proto.
  split; [reflexivity|]. split; [now left|reflexivity].
Qed.


Lemma token_accumulation_order_witness :
  heap (send Fixtures.uuid_value Fixtures.stringify
          (Fixtures.parse_table Fixtures.tokens_table)
          (Fixtures.delivers Fixtures.stream_hello)
          (Fixtures.fresh_page (lit " hi ")))
    !! 1%nat
  = Some (UiMessage.mk (Fixtures.uuid_value 1) ai (lit "Hello") None
            (Some []) (Some ∅)).
Proof.
  exact (proj2 (token_accumulation_order Fixtures.uuid_value
                  Fixtures.stringify
                  (Fixtures.parse_table Fixtures.tokens_table)
                  (Fixtures.delivers Fixtures.stream_hello)
                  (Fixtures.fresh_page (lit " hi "))
                  [lit "He"; lit "llo"] eq_refl eq_refl) eq_refl).
Defined.

Lemma other_messages_change_nothing_witness :
  let st := snd (send_begin Fixtures.uuid_value (lit "hi")
                   (Fixtures.fresh_page [])) in
  Chat.on_event Fixtures.uuid_value Fixtures.stringify 1
    (message (ChatMsg.mk tool (JString (lit "42")) None None (Some []) None))
    st = st /\
  Chat.on_event Fixtures.uuid_value Fixtures.stringify 1
    (message (ChatMsg.mk human (JString (lit "hi")) None None None None))
    st = st.
Proof.
  intros st. split.
  - apply (other_messages_change_nothing Fixtures.uuid_value Fixtures.stringify).
    right. split; [reflexivity|]. right. reflexivity.
  - apply (other_messages_change_nothing Fixtures.uuid_value Fixtures.stringify).
    left. reflexivity.
Defined.

Lemma busy_flag_symmetry_witness :
  let net := resolved {| ok := false; status := 502; body := None;
                         text := Some (lit "Bad Gateway") |} in
  let st' := send Fixtures.uuid_value Fixtures.stringify
               (Fixtures.parse_table Fixtures.tokens_table) net
               (Fixtures.fresh_page (lit "hi")) in
  loading st' = false /\
  heap st' !! 1%nat =
    Some (UiMessage.mk (Fixtures.uuid_value 1) ai
            ([LF; LF] ++ lit "[Stream Failed] Stream failed: 502 Bad Gateway")
            None (Some []) (Some ∅)).
Proof.
  intros net st'.
  destruct (busy_flag_symmetry Fixtures.uuid_value Fixtures.stringify
              (Fixtures.parse_table Fixtures.tokens_table) net
              (Fixtures.fresh_page (lit "hi")) eq_refl eq_refl)
    as (_ & _ & _ & _ & _ & _ & _ & Hload & _ & Hthrow).
  split; [exact Hload|].
  unfold st'. rewrite (Hthrow _ _ eq_refl). reflexivity.
Defined.

(** The page while a send streams: the placeholder has received an
    assistant message that calls the tools [a] and [b]. *)
Example attached_under_its_id :
  let st := snd (send_begin Fixtures.uuid_value (lit "hi")
                   (Fixtures.fresh_page [])) in
  let turn := ChatMsg.mk ai (JString []) (Some (lit "run-1"))
                (Some [Fixtures.call_a; Fixtures.call_b]) None None in
  let result := ChatMsg.mk tool (JString (lit "42")) None None
                  (Some (lit "b")) None in
  let st := Chat.on_event Fixtures.uuid_value Fixtures.stringify 1
              (message turn) st in
  let st := Chat.on_event Fixtures.uuid_value Fixtures.stringify 1
              (message result) st in
  messages st = [0; 1]%nat /\
  exists entry results,
    heap st !! 1%nat = Some entry /\
    UiMessage.toolResults entry = Some results /\
    JsObject.own results !! lit "b" = Some (JString (lit "42")) /\
    JsObject.own results !! lit "a" = None.
Proof.
  split; [reflexivity|]. eexists; eexists.
  split; [reflexivity|]. split; [reflexivity|].
  split; vm_compute; reflexivity.
Qed.

(** A result that no entry asked for becomes an entry of its own. *)
Example orphan_result_is_shown :
  let st := snd (send_begin Fixtures.uuid_value (lit "hi")
                   (Fixtures.fresh_page [])) in
  let result := ChatMsg.mk tool (JString (lit "42")) None None
                  (Some (lit "zz")) None in
  transcript (Chat.on_event Fixtures.uuid_value Fixtures.stringify 1
                (message result) st)
  = transcript st ++
    [Some (UiMessage.mk (Fixtures.uuid_value 2) tool (lit "42") None None None)].
Proof. reflexivity. Qed.

End ChatFacts.

(** * Further properties of the stream decoder *)

Module SseMore.
Import Js Sse JsFacts TextDecoderFacts SseFacts.

Lemma includes_cons needle c s :
  Http.includes needle (c :: s) =
  startsWith needle (c :: s) || Http.includes needle s.
Proof. reflexivity. Qed.

(** A text without two line feeds in a row is not split. *)
Lemma split_LFLF_no_blank (s : jsstring) :
  Http.includes [LF; LF] s = false -> split_LFLF s = [s].
Proof.
  induction s as [| c | c d s IH1 IH2] using two_step_ind; try reflexivity.
  rewrite includes_cons, split_LFLF_cons2. intros H.
  apply orb_false_iff in H as [Hhead Htail].
  cbn [startsWith] in Hhead. rewrite andb_true_r in Hhead.
  rewrite (N.eqb_sym LF c), (N.eqb_sym LF d) in Hhead. rewrite Hhead.
  now rewrite (IH2 Htail).
Qed.

Lemma split_LF_app_LF (a rest : jsstring) :
  Forall (fun c => c <> LF) a ->
  split_LF (a ++ LF :: rest) = a :: split_LF rest.
Proof.
  induction 1 as [|c a Hc _ IH]; simpl; [reflexivity|].
  apply N.eqb_neq in Hc. now rewrite Hc, IH.
Qed.

Lemma split_LF_not_nil s : split_LF s <> [].
Proof.
  induction s as [|c s IH]; simpl; [easy|].
  destruct (c =? LF); [easy|]. now destruct (split_LF s).
Qed.

Lemma split_LF_app_tail (block tail : jsstring) :
  Forall (fun c => c <> LF) tail ->
  split_LF (block ++ tail) =
  List.removelast (split_LF block) ++ [List.last (split_LF block) [] ++ tail].
Proof.
  intros Htail. induction block as [|c block IH]; simpl.
  - now apply split_LF_single.
  - pose proof (split_LF_not_nil block) as Hne.
    destruct (c =? LF).
    + rewrite IH. now destruct (split_LF block).
    + rewrite IH. destruct (split_LF block) as [|p [|q ps]]; easy.
Qed.

Lemma drop_spaces_app_cases (a b : jsstring) :
  drop_spaces (a ++ b) =
  match drop_spaces a with
  | [] => drop_spaces b
  | kept => kept ++ b
  end.
Proof.
  induction a as [|c a IH]; simpl; [now destruct (drop_spaces b)|].
  destruct (is_space c); [exact IH | reflexivity].
Qed.

(** Trailing white space does not survive [trimEnd]. *)
Lemma trimEnd_app_spaces (s spaces : jsstring) :
  Forall (fun c => is_space c = true) spaces ->
  trimEnd (s ++ spaces) = trimEnd s.
Proof.
  intros H. unfold trimEnd. rewrite rev_app_distr, drop_spaces_app; auto.
  now apply Forall_rev.
Qed.

(** [trimEnd] keeps a prefix that ends with a character that is not white
    space. *)
Lemma trimEnd_keeps_prefix (p s : jsstring) (c : N) :
  is_space c = false ->
  trimEnd ((p ++ [c]) ++ s) = (p ++ [c]) ++ trimEnd s.
Proof.
  intros Hc. unfold trimEnd.
  rewrite rev_app_distr, drop_spaces_app_cases.
  destruct (drop_spaces (rev s)) as [|k kept] eqn:E.
  - rewrite rev_app_distr. simpl. rewrite Hc. simpl.
    now rewrite rev_involutive, app_nil_r.
  - now rewrite rev_app_distr, rev_involutive.
Qed.

Lemma startsWith_spec (p s : jsstring) :
  startsWith p s = true <-> exists rest, s = p ++ rest.
Proof.
  split.
  - revert s; induction p as [|x p IH]; intros s H; [now exists s|].
    destruct s as [|y s]; [discriminate|]. simpl in H.
    apply andb_true_iff in H as [Hxy H]. apply N.eqb_eq in Hxy as ->.
    destruct (IH s H) as [rest ->]. now exists rest.
  - intros [rest ->]. apply startsWith_app.
Qed.

Lemma startsWith_data_trimEnd (line : jsstring) :
  startsWith data_prefix line = true ->
  startsWith data_prefix (trimEnd line) = true.
Proof.
  intros H. apply startsWith_spec in H as [rest ->].
  change data_prefix with (lit "data" ++ [58]).
  rewrite trimEnd_keeps_prefix by reflexivity. apply startsWith_app.
Qed.

Section Blocks.
Context {A S : Type}.
Variable JSON_parse : jsstring -> option (StreamEvent A).
Variable onEvent : StreamEvent A -> S -> completion S.

(** What [streamChat] does with a successful response: every block that a
    blank line closes, in the text of all the bytes, goes through the loop
    body in order; the text after the last blank line is never looked at;
    a failing read only shows once the blocks are done without a
    sentinel. *)
Theorem streamChat_runs_closed_blocks (status : N) (text : option jsstring)
    (values : list (list Byte.byte)) (ending : ReadEnd) (s : S) :
  streamChat JSON_parse onEvent
    (resolved (Build_Response true status
                 (Some (Build_Body values ending)) text)) s =
  match for_chunks JSON_parse onEvent
          (List.removelast
             (split_LFLF (snd (TextDecoder.decode TextDecoder.init
                                 (concat values))))) s with
  | Next s' =>
      match ending with
      | done => Returned s'
      | read_throws e => Threw e s'
      end
  | Stop s' => Returned s'
  | Raise e s' => Threw e s'
  end.
Proof.
  rewrite streamChat_concat. unfold streamChat; simpl.
  destruct (TextDecoder.decode TextDecoder.init (concat values)) as [d txt].
  simpl. destruct (for_chunks _ _ _ s); reflexivity.
Qed.

(** A body whose text never has two line feeds in a row gives no event at
    all: the callback is not called, whatever [data:] lines the text
    holds.  This is the case of a stream that ends its lines with CR LF. *)
Theorem no_blank_line_no_event (status : N) (text : option jsstring)
    (values : list (list Byte.byte)) (s : S) :
  Http.includes [LF; LF]
    (snd (TextDecoder.decode TextDecoder.init (concat values))) = false ->
  streamChat JSON_parse onEvent
    (resolved (Build_Response true status
                 (Some (Build_Body values done)) text)) s
  = Returned s.
Proof.
  intros H. rewrite streamChat_concat. unfold streamChat; simpl.
  destruct (TextDecoder.decode TextDecoder.init (concat values)) as [d txt].
  simpl in *. now rewrite (split_LFLF_no_blank _ H).
Qed.

(** A line that does not start with [data:] once its trailing white space
    is removed (an [event:] or [id:] field, a comment, an empty line) is
    skipped: the block is handled as if it started after that line. *)
Theorem other_lines_are_skipped (other rest : jsstring) (s : S) :
  Forall (fun c => c <> LF) other ->
  startsWith data_prefix (trimEnd other) = false ->
  for_body JSON_parse onEvent (other ++ LF :: rest) s =
  for_body JSON_parse onEvent rest s.
Proof.
  intros Hlf Hother. unfold for_body, find_line.
  rewrite split_LF_app_LF by assumption. cbn [List.map List.find].
  now rewrite Hother.
Qed.

(** Only the first [data:] line of a block counts: whatever follows it in
    the block, further [data:] lines included, changes nothing. *)
Theorem first_data_line_wins (line rest : jsstring) (s : S) :
  Forall (fun c => c <> LF) line ->
  startsWith data_prefix line = true ->
  for_body JSON_parse onEvent (line ++ LF :: rest) s =
  for_body JSON_parse onEvent line s.
Proof.
  intros Hlf Hline. unfold for_body, find_line.
  rewrite split_LF_app_LF, (split_LF_single line) by assumption.
  cbn [List.map List.find].
  now rewrite (startsWith_data_trimEnd _ Hline).
Qed.

(** White space at the end of a block (a carriage return before the blank
    line, for one) changes nothing. *)
Theorem trailing_space_is_ignored (block spaces : jsstring) (s : S) :
  Forall (fun c => is_space c = true) spaces ->
  Forall (fun c => c <> LF) spaces ->
  for_body JSON_parse onEvent (block ++ spaces) s =
  for_body JSON_parse onEvent block s.
Proof.
  intros Hsp Hlf. unfold for_body, find_line.
  rewrite split_LF_app_tail by assumption.
  rewrite (app_removelast_last [] (split_LF_not_nil block)) at 3.
  rewrite !List.map_app. simpl.
  now rewrite trimEnd_app_spaces.
Qed.

End Blocks.

Lemma no_blank_line_no_event_witness :
  events (Fixtures.parse_table Fixtures.tokens_table)
    (Fixtures.delivers Cases.stream_CRLF)
  = Returned [].
Proof.
  exact (no_blank_line_no_event
           (Fixtures.parse_table Fixtures.tokens_table) record_event
           200 None Cases.stream_CRLF [] eq_refl).
Defined.

Lemma other_lines_are_skipped_witness :
  for_body (Fixtures.parse_table Fixtures.tokens_table) record_event
    (lit "event: delta " ++ LF :: lit "data: T1") [] =
  for_body (Fixtures.parse_table Fixtures.tokens_table) record_event
    (lit "data: T1") [].
Proof.
  refine (other_lines_are_skipped
            (Fixtures.parse_table Fixtures.tokens_table) record_event
            (lit "event: delta ") (lit "data: T1") [] _ eq_refl).
  repeat constructor; discriminate.
Defined.

Lemma first_data_line_wins_witness :
  for_body (Fixtures.parse_table Fixtures.tokens_table) record_event
    (lit "data: T1" ++ LF :: lit "data: T2") [] =
  for_body (Fixtures.parse_table Fixtures.tokens_table) record_event
    (lit "data: T1") [].
Proof.
  refine (first_data_line_wins
            (Fixtures.parse_table Fixtures.tokens_table) record_event
            (lit "data: T1") (lit "data: T2") [] _ eq_refl).
  repeat constructor; discriminate.
Defined.

Lemma trailing_space_is_ignored_witness :
  for_body (Fixtures.parse_table Fixtures.tokens_table) record_event
    (lit "data: T1" ++ [13; 32]) [] =
  for_body (Fixtures.parse_table Fixtures.tokens_table) record_event
    (lit "data: T1") [].
Proof.
  refine (trailing_space_is_ignored
            (Fixtures.parse_table Fixtures.tokens_table) record_event
            (lit "data: T1") [13; 32] [] _ _);
    repeat constructor; discriminate.
Defined.

End SseMore.

(** * Objects used as maps *)

Module JsObjectFacts.
Import Js JsFacts JsObject.

(** Assigning under any name but [__proto__] creates or overwrites an own
    property. *)
Lemma set_ordinary (key : jsstring) (v : JsValue) (o : t) :
  key <> proto_key -> set key v o = define key v o.
Proof.
  intros Hkey. unfold set.
  destruct (eqb key proto_key) eqn:E; [|reflexivity].
  now apply eqb_eq in E.
Qed.



Lemma define_define key v w o : define key w (define key v o) = define key w o.
Proof. unfold define; simpl. f_equal. apply insert_insert_eq. Qed.

Section Reading.
Variable names : list jsstring.



End Reading.
End JsObjectFacts.

(** * Further properties of the transcript *)

Module ChatMore.
Import Js Sse Chat JsFacts SseFacts ChatFacts Notions.

Section Page.
Variable uuid_value : nat -> jsstring.
Variable JSON_stringify : JsValue -> jsstring.
Variable JSON_parse : jsstring -> option (StreamEvent ChatMsg.t).

Local Abbreviation attachToolResult := (attachToolResult uuid_value JSON_stringify).
Local Abbreviation on_event := (on_event uuid_value JSON_stringify).
Local Abbreviation on_message := (on_message uuid_value JSON_stringify).
Local Abbreviation display := (display JSON_stringify).
Local Abbreviation send := (send uuid_value JSON_stringify JSON_parse).
Local Abbreviation with_result toolCallId result msg :=
  (UiMessage.set_toolResults
     (Some (JsObject.set toolCallId result
              (default ∅ (UiMessage.toolResults msg))))
     msg).

(** *** The three things an event can do *)

Lemma on_message_cases aiPlaceholder m st :
  on_message aiPlaceholder m st =
  match ChatMsg.type m with
  | ai => modify aiPlaceholder (on_ai JSON_stringify m) st
  | tool =>
      match tool_result_id m with
      | Some i => attachToolResult i (ChatMsg.content m) st
      | None => st
      end
  | custom =>
      push (UiMessage.mk (uuid_value (uuids st)) custom
              (custom_text JSON_stringify m) None None None)
           (set_uuids (Datatypes.S (uuids st)) st)
  | human => st
  end.
Proof.
  unfold Chat.on_message, tool_result_id.
  destruct (ChatMsg.type m); reflexivity.
Qed.

Lemma on_ai_id_role m entry :
  UiMessage.id (on_ai JSON_stringify m entry) = UiMessage.id entry /\
  UiMessage.role (on_ai JSON_stringify m entry) = UiMessage.role entry.
Proof.
  unfold on_ai.
  destruct (ChatMsg.content m) as [| b | bits | s | items | fields]; simpl;
    try destruct b; try destruct (number_truthy bits);
    try destruct (nonempty s); split; reflexivity.
Qed.

(** What an event writes to the placeholder keeps its id and role. *)
Lemma modify_step a f st :
  (forall m, UiMessage.id (f m) = UiMessage.id m /\
             UiMessage.role (f m) = UiMessage.role m) ->
  appends_at_most 0 st (modify a f st) /\ keeps_entries st (modify a f st) /\
  input (modify a f st) = input st /\ loading (modify a f st) = loading st /\
  uuids (modify a f st) = uuids st.
Proof.
  intros Hf. unfold modify.
  destruct (heap st !! a) as [m0|] eqn:Ha; simpl.
  - split; [exists []; now rewrite app_nil_r|]. split; [|auto].
    intros b m Hb. destruct (decide (b = a)) as [->|Hne].
    + exists (f m0). simpl. rewrite list_lookup_insert_eq
        by (now apply lookup_lt_Some in Ha).
      rewrite Ha in Hb. injection Hb as <-. split; [reflexivity|apply Hf].
    + exists m. simpl. now rewrite list_lookup_insert_ne by congruence.
  - split; [exists []; now rewrite app_nil_r|]. split; [|auto].
    intros b m Hb. now exists m.
Qed.

Lemma push_step m st :
  appends_at_most 1 st (push m st) /\ keeps_entries st (push m st) /\
  input (push m st) = input st /\ loading (push m st) = loading st.
Proof.
  unfold push, alloc; simpl.
  split; [exists [length (heap st)]; split; [reflexivity|simpl; lia]|].
  split; [|auto].
  intros b m0 Hb. exists m0. simpl. split; [|auto].
  now apply lookup_app_l_Some.
Qed.

Lemma attach_step toolCallId result st :
  appends_at_most 1 st (attachToolResult toolCallId result st) /\
  keeps_entries st (attachToolResult toolCallId result st) /\
  input (attachToolResult toolCallId result st) = input st /\
  loading (attachToolResult toolCallId result st) = loading st.
Proof.
  destruct (attachToolResult_cases uuid_value JSON_stringify
              toolCallId result st)
    as [(older & a & newer & msg & _ & Ha & _ & _ & ->) | [_ ->]]; simpl.
  - split; [exists []; split; [now rewrite app_nil_r|simpl; lia]|].
    split; [|auto].
    intros b m Hb. destruct (decide (b = a)) as [->|Hne].
    + eexists. simpl. rewrite list_lookup_insert_eq
        by (now apply lookup_lt_Some in Ha).
      split; [reflexivity|]. rewrite Ha in Hb. now injection Hb as <-.
    + exists m. simpl. now rewrite list_lookup_insert_ne by congruence.
  - split; [exists [length (heap st)]; split; [reflexivity|simpl; lia]|].
    split; [|auto].
    intros b m Hb. exists m. simpl. split; [|auto].
    now apply lookup_app_l_Some.
Qed.

Lemma appends_at_most_le n k st st' :
  (n <= k)%nat -> appends_at_most n st st' -> appends_at_most k st st'.
Proof. intros Hle (extra & H & Hlen). exists extra. split; [exact H|lia]. Qed.

(** What one event does to the page. *)
Lemma on_event_grows (aiPlaceholder : nat)
    (ev : StreamEvent ChatMsg.t) (st : State) :
  let st' := on_event aiPlaceholder ev st in
  appends_at_most 1 st st' /\ keeps_entries st st' /\
  input st' = input st /\ loading st' = loading st.
Proof.
  assert (Hmod : forall f,
    (forall m, UiMessage.id (f m) = UiMessage.id m /\
               UiMessage.role (f m) = UiMessage.role m) ->
    appends_at_most 1 st (modify aiPlaceholder f st) /\
    keeps_entries st (modify aiPlaceholder f st) /\
    input (modify aiPlaceholder f st) = input st /\
    loading (modify aiPlaceholder f st) = loading st).
  { intros f Hf.
    destruct (modify_step aiPlaceholder f st Hf) as (H0 & Hk & Hi & Hl & _).
    split; [apply (appends_at_most_le 0); [lia|exact H0]|auto]. }
  destruct ev as [c | m | c]; simpl.
  - apply Hmod. now intros [].
  - rewrite on_message_cases. destruct (ChatMsg.type m).
    + split; [exists []; split; [now rewrite app_nil_r|simpl; lia]|].
      split; [|auto]. intros a m0 H. now exists m0.
    + apply Hmod. apply on_ai_id_role.
    + destruct (tool_result_id m); [apply attach_step|].
      split; [exists []; split; [now rewrite app_nil_r|simpl; lia]|].
      split; [|auto]. intros a m0 H. now exists m0.
    + destruct (push_step
                  (UiMessage.mk (uuid_value (uuids st)) custom
                     (custom_text JSON_stringify m) None None None)
                  (set_uuids (Datatypes.S (uuids st)) st))
        as (H1 & Hk & Hi & Hl).
      split; [exact H1|]. split; [exact Hk|auto].
  - apply Hmod. now intros [].
Qed.

(** The transcript only grows: an event, whatever it is, keeps every
    entry in its place with its id and its role, appends at most one entry,
    and leaves the input box and the busy flag alone. *)
Theorem transcript_only_grows (aiPlaceholder : nat)
    (ev : StreamEvent ChatMsg.t) (st : State) :
  let st' := on_event aiPlaceholder ev st in
  appends_at_most 1 st st' /\ keeps_entries st st' /\
  input st' = input st /\ loading st' = loading st.
Proof. exact (on_event_grows aiPlaceholder ev st). Qed.

(** An event writes to [ai] objects only. *)
Lemma on_event_other_roles (aiPlaceholder : nat)
    (ev : StreamEvent ChatMsg.t) (st : State) (entry : UiMessage.t) :
  heap st !! aiPlaceholder = Some entry -> UiMessage.role entry = ai ->
  forall a m, heap st !! a = Some m -> UiMessage.role m <> ai ->
    heap (on_event aiPlaceholder ev st) !! a = Some m.
Proof.
  intros Hp Hai a m Ha Hrole.
  assert (Hne : a <> aiPlaceholder) by (intros ->; congruence).
  assert (Hmod : forall f, heap (modify aiPlaceholder f st) !! a = Some m).
  { intros f. rewrite (modify_Some _ _ _ _ Hp). simpl.
    now rewrite list_lookup_insert_ne by congruence. }
  destruct ev as [c | msg | c]; simpl; try apply Hmod.
  rewrite on_message_cases. destruct (ChatMsg.type msg); auto.
  - destruct (tool_result_id msg) as [i|]; [|exact Ha].
    destruct (attachToolResult_cases uuid_value JSON_stringify i
                (ChatMsg.content msg) st)
      as [(older & b & newer & target & _ & Hb & [Hlists _] & _ & ->)
         | [_ ->]]; simpl.
    + rewrite list_lookup_insert_ne; [exact Ha|]. intros ->. congruence.
    + now apply lookup_app_l_Some.
  - unfold push, alloc; simpl. now apply lookup_app_l_Some.
Qed.

(** While a send streams, entries that are not of role [ai] (the user's
    messages, standalone tool results, custom entries) are never written
    to. *)
Theorem stream_leaves_other_roles (aiPlaceholder : nat)
    (ev : StreamEvent ChatMsg.t) (st : State) (entry : UiMessage.t) :
  heap st !! aiPlaceholder = Some entry -> UiMessage.role entry = ai ->
  forall a m, heap st !! a = Some m -> UiMessage.role m <> ai ->
    heap (on_event aiPlaceholder ev st) !! a = Some m.
Proof. exact (on_event_other_roles aiPlaceholder ev st entry). Qed.

(** *** Events of a send whose placeholder is no longer shown *)

Lemma transcript_modify_outside a f st :
  ~ In a (messages st) -> transcript (modify a f st) = transcript st.
Proof.
  intros Hout. unfold modify, transcript.
  destruct (heap st !! a) as [m|]; [|reflexivity]. simpl.
  apply map_ext_in. intros b Hb.
  apply list_lookup_insert_ne. intros ->. contradiction.
Qed.

Lemma on_event_placeholder_only aiPlaceholder ev st :
  writes_placeholder_only ev ->
  exists f, on_event aiPlaceholder ev st = modify aiPlaceholder f st.
Proof.
  destruct ev as [c | m | c]; simpl; intros H; try (eexists; reflexivity).
  rewrite on_message_cases, H. eexists; reflexivity.
Qed.

Lemma messages_modify a f st : messages (modify a f st) = messages st.
Proof. unfold modify. now destruct (heap st !! a). Qed.

(** Writes to an object that is not shown. *)
Lemma placeholder_only_transcript (aiPlaceholder : nat)
    (evs : list (StreamEvent ChatMsg.t)) : forall st : State,
  Forall writes_placeholder_only evs ->
  ~ In aiPlaceholder (messages st) ->
  transcript (fold_left (fun s ev => on_event aiPlaceholder ev s) evs st)
  = transcript st.
Proof.
  induction evs as [|ev evs IH]; intros st Hevs Hout; [reflexivity|].
  apply Forall_cons in Hevs as [Hev Hevs]. simpl.
  destruct (on_event_placeholder_only aiPlaceholder ev st Hev) as [f ->].
  rewrite IH; [now apply transcript_modify_outside|exact Hevs|].
  now rewrite messages_modify.
Qed.

(** When the placeholder of a send is not in [messages.value] (the
    transcript was replaced while the send was streaming), its tokens,
    error notices and [ai] messages change nothing of what the page
    shows. *)
Theorem stale_stream_is_invisible (aiPlaceholder : nat)
    (evs : list (StreamEvent ChatMsg.t)) : forall st : State,
  Forall writes_placeholder_only evs ->
  ~ In aiPlaceholder (messages st) ->
  transcript (fold_left (fun s ev => on_event aiPlaceholder ev s) evs st)
  = transcript st.
Proof. exact (placeholder_only_transcript aiPlaceholder evs). Qed.

(** [startNewConversation] empties the transcript, draws a new thread id
    and writes it to the URL; and what a send that is still streaming
    writes to its placeholder afterwards never appears in the new
    transcript. *)
Theorem new_conversation_hides_running_stream (aiPlaceholder : nat)
    (evs : list (StreamEvent ChatMsg.t)) (s : Session.t) :
  Forall writes_placeholder_only evs ->
  let s' := Session.startNewConversation uuid_value s in
  transcript (Session.page s') = [] /\
  Session.threadId s' = uuid_value (uuids (Session.page s)) /\
  Session.written s' = Session.written s ++ [Session.threadId s'] /\
  transcript (fold_left (fun st ev => on_event aiPlaceholder ev st) evs
                (Session.page s')) = [].
Proof.
  intros Hevs s'. split; [reflexivity|]. split; [reflexivity|].
  split; [reflexivity|].
  now rewrite placeholder_only_transcript by (auto; intros []).
Qed.

(** *** Sends that are not accepted *)

Lemma trim_spaces (s : jsstring) :
  Forall (fun c => is_space c = true) s -> trim s = [].
Proof.
  intros H. unfold trim.
  replace (drop_spaces s) with (@nil N); [reflexivity|].
  induction H as [|c s Hc _ IH]; simpl; [reflexivity|]. now rewrite Hc.
Qed.

(** [send] does nothing at all, and asks nothing of the network, when the
    input holds only white space or when a send is already running. *)
Theorem send_is_refused (net : Fetch) (st : State) :
  Forall (fun c => is_space c = true) (input st) \/ loading st = true ->
  send net st = st.
Proof.
  intros [Hblank | Hbusy]; unfold Chat.send.
  - now rewrite (trim_spaces _ Hblank).
  - rewrite Hbusy. now rewrite orb_true_r.
Qed.

(** *** Attaching a result, seen from the template *)

Lemma attach_loop_found toolCallId result st a msg older_down :
  heap st !! a = Some msg -> lists_call toolCallId msg ->
  forall newer_down,
  (forall a' msg', In a' newer_down -> heap st !! a' = Some msg' ->
                   ~ lists_call toolCallId msg') ->
  attach_loop toolCallId result (newer_down ++ a :: older_down) st =
  Some (set_heap (<[a := with_result toolCallId result msg]> (heap st)) st).
Proof.
  intros Ha Hlists. induction newer_down as [|b newer IH]; intros Hnewer; simpl.
  - rewrite Ha. apply holds_call_spec in Hlists. rewrite Hlists.
    f_equal. exact (modify_Some a (fun m => with_result toolCallId result m)
                      st msg Ha).
  - assert (Hrest : forall a' msg', In a' newer ->
              heap st !! a' = Some msg' -> ~ lists_call toolCallId msg')
      by (intros a' msg' Hin; apply Hnewer; now right).
    destruct (heap st !! b) as [mb|] eqn:Hb; [|now apply IH].
    assert (Hno : holds_call toolCallId mb = false)
      by (apply holds_call_false; apply (Hnewer b mb); [now left|exact Hb]).
    rewrite Hno. now apply IH.
Qed.

Lemma attachToolResult_found toolCallId result st older a newer msg :
  messages st = older ++ a :: newer ->
  heap st !! a = Some msg -> lists_call toolCallId msg ->
  (forall a' msg', In a' newer -> heap st !! a' = Some msg' ->
                   ~ lists_call toolCallId msg') ->
  attachToolResult toolCallId result st =
  set_heap (<[a := with_result toolCallId result msg]> (heap st)) st.
Proof.
  intros Hm Ha Hlists Hnewer. unfold Chat.attachToolResult.
  rewrite Hm, rev_app_distr. simpl. rewrite <- app_assoc. simpl.
  rewrite (attach_loop_found toolCallId result st a msg (rev older) Ha Hlists);
    [reflexivity|].
  intros a' msg' Hin. apply Hnewer. now apply in_rev.
Qed.

(** The newest entry that lists a call, when some entry of the transcript
    does. *)
Lemma newest_listing toolCallId st b mb :
  In b (messages st) -> heap st !! b = Some mb -> lists_call toolCallId mb ->
  exists older a newer msg,
    messages st = older ++ a :: newer /\
    heap st !! a = Some msg /\ lists_call toolCallId msg /\
    (forall a' msg', In a' newer -> heap st !! a' = Some msg' ->
                     ~ lists_call toolCallId msg').
Proof.
  intros Hin Hb Hlists.
  destruct (attachToolResult_cases uuid_value JSON_stringify toolCallId
              JNull st)
    as [(older & a & newer & msg & Hm & Ha & Hl & Hn & _) | [Hnone _]].
  - now exists older, a, newer, msg.
  - exfalso. exact (Hnone b mb Hin Hb Hlists).
Qed.


(** For an id other than [__proto__], when an entry of the transcript
    lists the call, a second result takes the place of the first: the page
    ends exactly as if only the second had arrived. *)
Theorem later_result_replaces_earlier (toolCallId : jsstring)
    (first second : JsValue) (st : State) (b : nat) (mb : UiMessage.t) :
  toolCallId <> JsObject.proto_key ->
  In b (messages st) -> heap st !! b = Some mb -> lists_call toolCallId mb ->
  attachToolResult toolCallId second (attachToolResult toolCallId first st)
  = attachToolResult toolCallId second st.
Proof.
  intros Hid Hin Hb Hlists.
  destruct (newest_listing toolCallId st b mb Hin Hb Hlists)
    as (older & a & newer & msg & Hm & Ha & Hl & Hn).
  rewrite (attachToolResult_found _ first _ _ _ _ _ Hm Ha Hl Hn).
  rewrite (attachToolResult_found _ second _ _ _ _ _ Hm Ha Hl Hn).
  assert (Hlt : (a < length (heap st))%nat) by now apply lookup_lt_Some in Ha.
  assert (Hout : ~ In a newer).
  { intros Hina. exact (Hn a msg Hina Ha Hl). }
  rewrite (attachToolResult_found toolCallId second _ older a newer
             (with_result toolCallId first msg)).
  - unfold set_heap; simpl. rewrite list_insert_insert_eq. f_equal. f_equal.
    unfold UiMessage.set_toolResults; simpl. f_equal. f_equal.
    rewrite !(JsObjectFacts.set_ordinary _ _ _ Hid).
    apply JsObjectFacts.define_define.
  - exact Hm.
  - simpl. now apply list_lookup_insert_eq.
  - destruct Hl as [Hrole Hcalls]. split; [exact Hrole|exact Hcalls].
  - simpl. intros a' msg' Hin' Hl'.
    rewrite list_lookup_insert_ne in Hl' by (intros ->; contradiction).
    exact (Hn a' msg' Hin' Hl').
Qed.

(** For an id other than [__proto__], [attachToolResult] never drops a
    result: either the newest entry of the transcript that lists the call
    (an [ai] entry) gets the result as its own property of that name, its
    other results and everything else being unchanged, or no entry lists
    the call and a [tool] entry that displays the result is appended. *)
Theorem ordinary_result_is_kept (toolCallId : jsstring) (result : JsValue)
    (st : State) :
  toolCallId <> JsObject.proto_key ->
  (exists older a newer msg,
     messages st = older ++ a :: newer /\
     heap st !! a = Some msg /\ lists_call toolCallId msg /\
     (forall a' msg', In a' newer -> heap st !! a' = Some msg' ->
                      ~ lists_call toolCallId msg') /\
     attachToolResult toolCallId result st =
       set_heap
         (<[a := UiMessage.set_toolResults
                   (Some (JsObject.define toolCallId result
                            (default ∅ (UiMessage.toolResults msg)))) msg]>
            (heap st)) st)
  \/
  ((forall a' msg', In a' (messages st) -> heap st !! a' = Some msg' ->
                    ~ lists_call toolCallId msg') /\
   attachToolResult toolCallId result st =
     mkState
       (heap st ++ [UiMessage.mk (uuid_value (uuids st)) tool (display result)
                      None None None])
       (messages st ++ [length (heap st)])
       (input st) (loading st) (Datatypes.S (uuids st))).
Proof.
  intros Hid.
  destruct (attachToolResult_cases uuid_value JSON_stringify toolCallId
              result st)
    as [(older & a & newer & msg & Hm & Ha & Hl & Hn & E) | [Hnone E]].
  - left. exists older, a, newer, msg.
    rewrite (JsObjectFacts.set_ordinary _ _ _ Hid) in E. auto.
  - right. auto.
Qed.

(** *** A whole send *)

(** An accepted send, however its stream goes, leaves the user's entry
    exactly as it was created (the trimmed input, role [human]) right after
    the entries that were there, followed by the placeholder, which is
    still an [ai] entry with its id; entries are only added after these
    two; the input box is empty and the busy flag is cleared. *)
Theorem send_keeps_the_user_entry (net : Fetch) (st : State) :
  nonempty (trim (input st)) = true -> loading st = false ->
  let h := length (heap st) in
  let st' := send net st in
  heap st' !! h =
    Some (UiMessage.mk (uuid_value (uuids st)) human (trim (input st))
            None None None) /\
  (exists entry, heap st' !! Datatypes.S h = Some entry /\
     UiMessage.role entry = ai /\
     UiMessage.id entry = uuid_value (Datatypes.S (uuids st))) /\
  (exists extra, messages st' = messages st ++ [h; Datatypes.S h] ++ extra) /\
  input st' = [] /\ loading st' = false.
Proof.
  intros Ht Hl h st'.
  set (user := UiMessage.mk (uuid_value (uuids st)) human (trim (input st))
                 None None None).
  set (p := Datatypes.S h).
  pose (Inv := fun s : State =>
    heap s !! h = Some user /\
    (exists entry, heap s !! p = Some entry /\ UiMessage.role entry = ai /\
       UiMessage.id entry = uuid_value (Datatypes.S (uuids st))) /\
    (exists extra, messages s = messages st ++ [h; p] ++ extra) /\
    input s = []).
  destruct (send_begin_placeholder uuid_value (trim (input st)) st)
    as (st1 & Hbegin & Hheap & Hmsgs & _ & Hinput & _).
  assert (H1 : Inv st1).
  { unfold Inv. rewrite Hheap, Hmsgs, Hinput.
    split; [rewrite lookup_app_r by lia; unfold h;
            now rewrite Nat.sub_diag|].
    split; [|split; [exists []; now rewrite app_nil_r|reflexivity]].
    eexists. split.
    { rewrite lookup_app_r by (unfold p, h; lia).
      unfold p, h. now replace (_ - _)%nat with 1%nat by lia. }
    split; reflexivity. }
  assert (Hev : forall ev s, Inv s -> Inv (on_event p ev s)).
  { intros ev s (Huser & (entry & Hp & Hrole & Hid) & (extra & Hm) & Hin).
    destruct (on_event_grows p ev s) as ((more & Hmore & _) & Hkeep & Hi & _).
    split; [apply (on_event_other_roles p ev s entry Hp Hrole h user Huser);
            discriminate|].
    split; [|split].
    - destruct (Hkeep p entry Hp) as (entry' & Hp' & Hid' & Hrole').
      exists entry'. split; [exact Hp'|]. split; congruence.
    - exists (extra ++ more). rewrite Hmore, Hm. now rewrite <- !app_assoc.
    - congruence. }
  assert (Hfold : forall tr s, Inv s ->
            Inv (fold_left (fun s ev => on_event p ev s) tr s)).
  { induction tr as [|ev tr IH]; intros s Hs; [exact Hs|].
    simpl. apply IH. now apply Hev. }
  assert (Hnotice : forall e s, Inv s ->
            Inv (modify p (append_content (failure_notice e)) s)).
  { intros e s (Huser & (entry & Hp & Hrole & Hid) & Hm & Hin).
    rewrite (modify_Some _ _ _ _ Hp). unfold Inv; simpl.
    split; [rewrite list_lookup_insert_ne by (unfold p; lia); exact Huser|].
    split; [|split; assumption].
    eexists. split; [apply list_lookup_insert_eq;
                     now apply lookup_lt_Some in Hp|].
    split; assumption. }
  assert (Htry : Inv (send_try uuid_value JSON_stringify JSON_parse p net st1)).
  { unfold send_try.
    rewrite (streamChat_fold JSON_parse (on_event p)).
    destruct (events JSON_parse net) as [tr | e tr];
      [|apply Hnotice]; now apply Hfold. }
  assert (Hsend : st' = send_finally
                          (send_try uuid_value JSON_stringify JSON_parse
                             p net st1)).
  { unfold st'. rewrite send_accepted by assumption. now rewrite Hbegin. }
  rewrite Hsend. destruct Htry as (Hu & Hp & Hm & Hin).
  unfold send_finally; simpl. repeat split; assumption.
Qed.

(** *** Loading a history *)

Lemma history_loop_flags ms : forall ui st,
  let st' := snd (history_loop uuid_value JSON_stringify ms ui st) in
  input st' = input st /\ loading st' = loading st.
Proof.
  induction ms as [|m rest IH]; intros ui st; [now split|].
  cbn [history_loop]. unfold toUiMessage, uuid, alloc.
  match goal with
  | |- context [history_loop _ _ rest ?ui' ?st1] =>
      destruct (IH ui' st1) as [Hi Hl]
  end.
  cbn zeta in *. rewrite Hi, Hl.
  destruct (tool_result_id m) as [i|]; [|now split].
  destruct (attach_step i (ChatMsg.content m)
              (set_heap
                 (heap (set_uuids (Datatypes.S (uuids st)) st) ++
                  [UiMessage.mk (uuid_value (uuids st)) (ChatMsg.type m)
                     (display (ChatMsg.content m)) (ChatMsg.run_id m)
                     (ChatMsg.tool_calls m) (Some ∅)])
                 (set_uuids (Datatypes.S (uuids st)) st)))
    as (_ & _ & -> & ->).
  now split.
Qed.

(** After a history load the transcript has one entry per message of the
    history, in the history's order, each with the message's role, its
    content as displayed (a string as it is, anything else as JSON), its
    run id and its tool calls; nothing of the previous transcript is left,
    and a missing history gives the empty transcript.  The input box and
    the busy flag are not touched. *)
Theorem loadHistory_one_entry_per_message
    (res_messages : option (list ChatMsg.t)) (st : State) :
  well_formed st ->
  let st' := loadHistory uuid_value JSON_stringify res_messages st in
  Forall2 (fun m shown =>
             exists entry, shown = Some entry /\
               UiMessage.role entry = ChatMsg.type m /\
               UiMessage.content entry = display (ChatMsg.content m) /\
               UiMessage.runId entry = ChatMsg.run_id m /\
               UiMessage.toolCalls entry = ChatMsg.tool_calls m)
          (default [] res_messages) (transcript st') /\
  input st' = input st /\ loading st' = loading st.
Proof.
  intros Hwf st'. split.
  - assert (H : loadHistory uuid_value JSON_stringify res_messages st =
                loadHistory uuid_value JSON_stringify
                  (Some (default [] res_messages)) st)
      by now destruct res_messages.
    unfold st'. rewrite H.
    eapply Forall2_impl;
      [exact (loadHistory_entries uuid_value JSON_stringify JSON_parse
                _ st Hwf)|].
    intros m shown [i ->]. eexists. split; [reflexivity|]. now simpl.
  - unfold st', loadHistory.
    pose proof (history_loop_flags (default [] res_messages) [] st) as H.
    destruct (history_loop _ _ _ _ _) as [ui st2]. exact H.
Qed.

End Page.

Lemma stream_leaves_other_roles_witness :
  heap (Chat.on_event Fixtures.uuid_value Fixtures.stringify 1
          (message Cases.result_of_b) Cases.page_with_calls) !! 0%nat
  = Some (UiMessage.mk (Fixtures.uuid_value 0) human (lit "hi")
            None None None).
Proof.
  refine (stream_leaves_other_roles Fixtures.uuid_value Fixtures.stringify
            1 (message Cases.result_of_b) Cases.page_with_calls _
            eq_refl eq_refl 0%nat _ eq_refl _).
  discriminate.
Defined.

Lemma stale_stream_is_invisible_witness :
  transcript
    (fold_left (fun s ev =>
                  Chat.on_event Fixtures.uuid_value Fixtures.stringify 1 ev s)
       [token (lit "He"); message Cases.turn_with_calls; error (lit "x")]
       (Chat.startNewConversation Cases.page_streaming))
  = transcript (Chat.startNewConversation Cases.page_streaming).
Proof.
  refine (stale_stream_is_invisible Fixtures.uuid_value Fixtures.stringify
            1 _ (Chat.startNewConversation Cases.page_streaming) _ _).
  - repeat constructor.
  - intros [].
Defined.

Lemma new_conversation_hides_running_stream_witness :
  transcript
    (fold_left (fun s ev =>
                  Chat.on_event Fixtures.uuid_value Fixtures.stringify 1 ev s)
       [token (lit "He"); token (lit "llo")]
       (Session.page
          (Session.startNewConversation Fixtures.uuid_value
             (Session.mk Cases.page_streaming (lit "t-1") []))))
  = [].
Proof.
  refine (proj2 (proj2 (proj2
    (new_conversation_hides_running_stream Fixtures.uuid_value
       Fixtures.stringify 1 [token (lit "He"); token (lit "llo")]
       (Session.mk Cases.page_streaming (lit "t-1") []) _)))).
  repeat constructor.
Defined.

Lemma send_is_refused_witness :
  Chat.send Fixtures.uuid_value Fixtures.stringify
    (Fixtures.parse_table Fixtures.tokens_table)
    (Fixtures.delivers Fixtures.stream_hello)
    (Fixtures.fresh_page [32; 9; 32])
  = Fixtures.fresh_page [32; 9; 32] /\
  Chat.send Fixtures.uuid_value Fixtures.stringify
    (Fixtures.parse_table Fixtures.tokens_table)
    (Fixtures.delivers Fixtures.stream_hello) Cases.page_streaming
  = Cases.page_streaming.
Proof.
  split.
  - apply (send_is_refused Fixtures.uuid_value Fixtures.stringify).
    left. repeat constructor.
  - apply (send_is_refused Fixtures.uuid_value Fixtures.stringify).
    right. reflexivity.
Defined.


Lemma later_result_replaces_earlier_witness :
  Chat.attachToolResult Fixtures.uuid_value Fixtures.stringify (lit "b")
    (JString (lit "43"))
    (Chat.attachToolResult Fixtures.uuid_value Fixtures.stringify (lit "b")
       (JString (lit "42")) Cases.page_with_calls)
  = Chat.attachToolResult Fixtures.uuid_value Fixtures.stringify (lit "b")
      (JString (lit "43")) Cases.page_with_calls.
Proof.
  refine (later_result_replaces_earlier Fixtures.uuid_value Fixtures.stringify
            (lit "b") (JString (lit "42")) (JString (lit "43"))
            Cases.page_with_calls 1%nat _ _
            (or_intror (or_introl eq_refl)) eq_refl _).
  - discriminate.
  - split; [reflexivity|].
    exists [Fixtures.call_a; Fixtures.call_b], Fixtures.call_b.
    split; [reflexivity|]. split; [right; now left|reflexivity].
Defined.

Lemma ordinary_result_is_kept_witness :
  let page := Cases.page_with_calls in
  let attached :=
    Chat.attachToolResult Fixtures.uuid_value Fixtures.stringify (lit "b")
      (JString (lit "42")) page in
  lit "b" <> JsObject.proto_key /\
  ((exists older a newer msg,
      messages page = older ++ a :: newer /\
      heap page !! a = Some msg /\ lists_call (lit "b") msg /\
      (forall a' msg', In a' newer -> heap page !! a' = Some msg' ->
                       ~ lists_call (lit "b") msg') /\
      attached =
        set_heap
          (<[a := UiMessage.set_toolResults
                    (Some (JsObject.define (lit "b") (JString (lit "42"))
                             (default ∅ (UiMessage.toolResults msg)))) msg]>
             (heap page)) page)
   \/
   ((forall a' msg', In a' (messages page) -> heap page !! a' = Some msg' ->
                     ~ lists_call (lit "b") msg') /\
    attached =
      mkState
        (heap page ++
         [UiMessage.mk (Fixtures.uuid_value (uuids page)) tool
            (Chat.display Fixtures.stringify (JString (lit "42")))
            None None None])
        (messages page ++ [length (heap page)])
        (input page) (loading page) (Datatypes.S (uuids page)))).
Proof.
  intros page attached.
  assert (Hid : lit "b" <> JsObject.proto_key) by discriminate.
  split; [exact Hid|].
  exact (ordinary_result_is_kept Fixtures.uuid_value Fixtures.stringify
           (lit "b") (JString (lit "42")) page Hid).
Defined.

Lemma send_keeps_the_user_entry_witness :
  heap (Chat.send Fixtures.uuid_value Fixtures.stringify
          (Fixtures.parse_table Fixtures.tokens_table)
          (Fixtures.delivers Fixtures.stream_hello)
          (Fixtures.fresh_page (lit " hi "))) !! 0%nat
  = Some (UiMessage.mk (Fixtures.uuid_value 0) human (lit "hi")
            None None None).
Proof.
  exact (proj1 (send_keeps_the_user_entry Fixtures.uuid_value
                  Fixtures.stringify
                  (Fixtures.parse_table Fixtures.tokens_table)
                  (Fixtures.delivers Fixtures.stream_hello)
                  (Fixtures.fresh_page (lit " hi ")) eq_refl eq_refl)).
Defined.

Lemma loadHistory_one_entry_per_message_witness :
  length (transcript
            (loadHistory Fixtures.uuid_value Fixtures.stringify
               (Some Fixtures.history_with_result) Cases.page_with_calls))
  = 3%nat.
Proof.
  assert (Hwf : well_formed Cases.page_with_calls)
    by (repeat constructor).
  pose proof (proj1 (loadHistory_one_entry_per_message Fixtures.uuid_value
                       Fixtures.stringify
                       (Fixtures.parse_table Fixtures.tokens_table)
                       (Some Fixtures.history_with_result)
                       Cases.page_with_calls Hwf)) as H.
  apply Forall2_length in H. symmetry. exact H.
Defined.

End ChatMore.

(** * Requests, the session store, the navigation guard and the login page *)

Module HttpFacts.
Import Js Sse JsFacts SseMore Http.

Lemma includes_spec (needle s : jsstring) :
  includes needle s = true <-> exists pre post, s = pre ++ needle ++ post.
Proof.
  split.
  - induction s as [|c s IH]; simpl; rewrite orb_true_iff.
    + intros [H|H]; [|discriminate].
      apply startsWith_spec in H as [rest H]. now exists [], rest.
    + intros [H|H].
      * apply startsWith_spec in H as [rest H]. now exists [], rest.
      * destruct (IH H) as (pre & post & ->). now exists (c :: pre), post.
  - intros (pre & post & ->). induction pre as [|c pre IH].
    + simpl app. destruct (needle ++ post) eqn:E; simpl;
        rewrite <- ?E, startsWith_app; reflexivity.
    + simpl. rewrite IH. apply orb_true_r.
Qed.

(** On an [ok] reply, [apiFetch] gives the parsed JSON body exactly when
    the content type contains [application/json] somewhere (so also with a
    charset parameter after it); with any other content type, or none, it
    gives the text of the body as a string. *)
Theorem apiFetch_reads_by_content_type (res : Reply) :
  ok res = true ->
  (forall pre post,
     content_type res = Some (pre ++ application_json ++ post) ->
     apiFetch (resolved res) = json res) /\
  ((forall pre post,
      default [] (content_type res) <> pre ++ application_json ++ post) ->
   apiFetch (resolved res) =
   match text res with
   | gives t => gives (JString t)
   | fails e => fails e
   end).
Proof.
  intros Hok. unfold apiFetch. rewrite Hok. simpl negb. cbv iota. split.
  - intros pre post Hct. rewrite Hct.
    change (default [] (Some (pre ++ application_json ++ post)))
      with (pre ++ application_json ++ post).
    assert (H : includes application_json (pre ++ application_json ++ post)
                = true) by (apply includes_spec; now exists pre, post).
    now rewrite H.
  - intros Hnot.
    destruct (includes application_json (default [] (content_type res)))
      eqn:E; [|reflexivity].
    apply includes_spec in E as (pre & post & E). now apply Hnot in E.
Qed.

Lemma apiFetch_reads_by_content_type_witness :
  let res := {| ok := true; status := 200;
                content_type :=
                  Some (lit "application/json; charset=utf-8");
                text := gives (lit "null");
                json := gives JNull |} in
  apiFetch (resolved res) = gives JNull.
Proof.
  intros res.
  exact (proj1 (apiFetch_reads_by_content_type res eq_refl)
           [] (lit "; charset=utf-8") eq_refl).
Defined.

End HttpFacts.

Module AuthFacts.
Import Js Sse Auth.

(** The ways [login] can end. *)
Lemma login_cases (net_login net_me : Http.Fetch) (s : Store) :
  match login net_login net_me s with
  | Returned s' =>
      (exists v, Http.apiFetch net_login = Http.gives v) /\
      Http.apiFetch net_me = Http.gives (me s') /\
      isAuthed s' = true /\ error s' = [] /\
      loading s' = false /\ _meChecked s' = true
  | Threw e s' =>
      loading s' = false /\ error s' = Chat.exn_text e /\
      ((Http.apiFetch net_login = Http.fails e /\
        me s' = me s /\ _meChecked s' = _meChecked s) \/
       ((exists v, Http.apiFetch net_login = Http.gives v) /\
        e = empty_me /\ isAuthed s' = false /\ _meChecked s' = true))
  end.
Proof.
  unfold login.
  destruct (Http.apiFetch net_login) as [v|e] eqn:Elogin; simpl.
  - unfold refreshMe, isAuthed. rewrite andb_false_r.
    destruct (Http.apiFetch net_me) as [w|e'] eqn:Eme; simpl.
    + destruct (Chat.truthy w) eqn:Ew; simpl.
      * rewrite Ew. repeat split; eauto.
      * rewrite Ew. split; [reflexivity|]. split; [reflexivity|].
        right. repeat split; eauto.
    + split; [reflexivity|]. split; [reflexivity|].
      right. repeat split; eauto.
  - split; [reflexivity|]. split; [reflexivity|]. left. now repeat split.
Qed.

(** [login] either returns, and then the login request succeeded, [me] is
    what [/auth/me] answered and is not empty, no error is recorded and
    the store is not loading; or it throws, the store is not loading and
    records the error's text, and then either the login request itself
    failed (and [me] is untouched) or it succeeded but [/auth/me] gave
    nothing, which is reported with a message of its own. *)
Theorem login_outcome (net_login net_me : Http.Fetch) (s : Store) :
  match login net_login net_me s with
  | Returned s' =>
      (exists v, Http.apiFetch net_login = Http.gives v) /\
      Http.apiFetch net_me = Http.gives (me s') /\
      isAuthed s' = true /\ error s' = [] /\
      loading s' = false /\ _meChecked s' = true
  | Threw e s' =>
      loading s' = false /\ error s' = Chat.exn_text e /\
      ((Http.apiFetch net_login = Http.fails e /\
        me s' = me s /\ _meChecked s' = _meChecked s) \/
       ((exists v, Http.apiFetch net_login = Http.gives v) /\
        e = empty_me /\ isAuthed s' = false /\ _meChecked s' = true))
  end.
Proof. exact (login_cases net_login net_me s). Qed.

(** After [logout], whatever the server answered (or if the request
    failed), nobody is signed in, the store is not loading and holds no
    error, and the check of [/auth/me] counts as done. *)
Lemma logout_clears (net : Http.Fetch) (s : Store) :
  logout net s = mk JNull false [] true.
Proof. unfold logout. now destruct (Http.apiFetch net). Qed.

End AuthFacts.

Module RouterFacts.
Import Js Sse JsFacts Auth Router AuthFacts.

Lemma refreshMe_checked force net s :
  _meChecked (refreshMe force net s) = true.
Proof.
  unfold refreshMe. destruct (_meChecked s) eqn:E, force; simpl; auto.
Qed.

Lemma refreshMe_skipped net s :
  _meChecked s = true -> refreshMe false net s = s.
Proof. intros H. unfold refreshMe. now rewrite H. Qed.

(** The store the guard works with, once it has looked at [/auth/me] if
    it had to. *)
Lemma beforeEach_store net to s :
  snd (beforeEach net to s) = refreshMe false net s.
Proof.
  unfold beforeEach.
  destruct (_meChecked s) eqn:E; simpl;
    [rewrite (refreshMe_skipped net s E)|];
    destruct (requiresAuth to && negb (isAuthed _)); try reflexivity;
    destruct (eqb (path to) (lit "/login") && isAuthed _); reflexivity.
Qed.

Lemma beforeEach_decides net to s :
  fst (beforeEach net to s) =
  let auth := refreshMe false net s in
  if requiresAuth to && negb (isAuthed auth) then to_login (fullPath to)
  else if eqb (path to) (lit "/login") && isAuthed auth then to_chat
  else proceed.
Proof.
  unfold beforeEach.
  destruct (_meChecked s) eqn:E; simpl;
    [rewrite (refreshMe_skipped net s E)|];
    destruct (requiresAuth to && negb (isAuthed _)); try reflexivity;
    destruct (eqb (path to) (lit "/login") && isAuthed _); reflexivity.
Qed.

(** What each answer of the guard means: it lets a navigation through to
    a location that requires a session only when somebody is signed in; it
    redirects to the login page, with the full path of the target as
    [redirect], only from such a location and only when nobody is; and it
    sends to [/chat] only a signed-in visitor of [/login]. *)
Theorem guard_protects (net : Http.Fetch) (to : Location) (s : Store) :
  let auth := snd (beforeEach net to s) in
  match fst (beforeEach net to s) with
  | proceed =>
      (requiresAuth to = true -> isAuthed auth = true) /\
      (path to = lit "/login" -> isAuthed auth = false)
  | to_login redirect =>
      redirect = fullPath to /\ requiresAuth to = true /\
      isAuthed auth = false
  | to_chat => path to = lit "/login" /\ isAuthed auth = true
  end.
Proof.
  rewrite beforeEach_store, beforeEach_decides. cbv zeta.
  destruct (requiresAuth to) eqn:Hreq,
           (isAuthed (refreshMe false net s)) eqn:Hauth; simpl.
  - destruct (eqb (path to) (lit "/login")) eqn:Hpath; simpl.
    + split; [now apply eqb_eq|reflexivity].
    + split; [auto|]. intros Hp. apply eqb_eq in Hp. congruence.
  - auto.
  - destruct (eqb (path to) (lit "/login")) eqn:Hpath; simpl.
    + split; [now apply eqb_eq|reflexivity].
    + split; [discriminate|]. intros Hp. apply eqb_eq in Hp. congruence.
  - rewrite andb_false_r. split; [discriminate|auto].
Qed.

Lemma beforeEach_when_checked net to s :
  _meChecked s = true ->
  beforeEach net to s =
  (if requiresAuth to && negb (isAuthed s) then to_login (fullPath to)
   else if eqb (path to) (lit "/login") && isAuthed s then to_chat
   else proceed, s).
Proof.
  intros Hc. unfold beforeEach. rewrite Hc. simpl.
  destruct (requiresAuth to && negb (isAuthed s)); [reflexivity|].
  now destruct (eqb (path to) (lit "/login") && isAuthed s).
Qed.

(** The guard looks at [/auth/me] at most once: after any navigation the
    check counts as done, and from then on the guard's answer does not
    depend on the network and the store is left as it is. *)
Theorem guard_asks_once (net net1 net2 : Http.Fetch) (to next : Location)
    (s : Store) :
  let auth := snd (beforeEach net to s) in
  _meChecked auth = true /\
  beforeEach net1 next auth = beforeEach net2 next auth /\
  snd (beforeEach net1 next auth) = auth.
Proof.
  cbv zeta. rewrite beforeEach_store.
  pose proof (refreshMe_checked false net s) as Hc.
  split; [exact Hc|].
  now rewrite !(beforeEach_when_checked _ next _ Hc).
Qed.

(** Following the guard's redirection ends the navigation: the login
    location it redirects to (which requires no session) and the chat
    location it sends a signed-in visitor to are both let through, without
    another redirection. *)
Theorem guard_redirects_settle (net net' : Http.Fetch) (to target : Location)
    (s : Store) :
  let auth := snd (beforeEach net to s) in
  match fst (beforeEach net to s) with
  | proceed => True
  | to_login _ =>
      path target = lit "/login" -> requiresAuth target = false ->
      beforeEach net' target auth = (proceed, auth)
  | to_chat =>
      path target = lit "/chat" ->
      beforeEach net' target auth = (proceed, auth)
  end.
Proof.
  rewrite beforeEach_store, beforeEach_decides. cbv zeta.
  pose proof (refreshMe_checked false net s) as Hc.
  set (auth := refreshMe false net s) in *.
  destruct (requiresAuth to && negb (isAuthed auth)) eqn:Hfirst.
  - intros Hpath Hreq. rewrite (beforeEach_when_checked _ _ _ Hc).
    apply andb_true_iff in Hfirst as [_ Hauth].
    apply negb_true_iff in Hauth.
    now rewrite Hreq, Hauth, andb_false_r.
  - destruct (eqb (path to) (lit "/login") && isAuthed auth) eqn:Hsecond;
      [|exact I].
    intros Hpath. rewrite (beforeEach_when_checked _ _ _ Hc).
    apply andb_true_iff in Hsecond as [_ Hauth].
    now rewrite Hauth, Hpath, andb_false_r.
Qed.

(** After a logout, whatever the server answered, a location that
    requires a session redirects to the login page without asking the
    server, and the login page itself is let through. *)
Theorem logout_locks_the_chat (net net' : Http.Fetch) (to : Location)
    (s : Store) :
  requiresAuth to = true ->
  isAuthed (logout net s) = false /\
  beforeEach net' to (logout net s)
    = (to_login (fullPath to), logout net s).
Proof.
  intros Hreq. rewrite logout_clears. split; [reflexivity|].
  unfold beforeEach. simpl. now rewrite Hreq.
Qed.

(** On the first navigation, with the store as it starts, a location
    that requires a session (and is not [/login]) is let through exactly
    when [/auth/me] answers with a value that is not empty; otherwise the
    guard redirects to the login page. *)
Theorem first_navigation_asks_the_server (net : Http.Fetch) (to : Location) :
  requiresAuth to = true -> path to <> lit "/login" ->
  (fst (beforeEach net to state) = proceed <->
   exists v, Http.apiFetch net = Http.gives v /\ Chat.truthy v = true) /\
  (fst (beforeEach net to state) <> proceed ->
   fst (beforeEach net to state) = to_login (fullPath to)).
Proof.
  intros Hreq Hpath. rewrite beforeEach_decides. cbv zeta.
  assert (Hne : eqb (path to) (lit "/login") = false).
  { destruct (eqb (path to) (lit "/login")) eqn:E; [|reflexivity].
    now apply eqb_eq in E. }
  rewrite Hreq, Hne. unfold refreshMe, isAuthed, state. simpl.
  destruct (Http.apiFetch net) as [v|e]; simpl.
  - destruct (Chat.truthy v) eqn:Hv; simpl; split; try easy.
    + split; [now exists v|reflexivity].
    + split; [discriminate|]. intros (w & [= <-] & Hw). congruence.
  - split; [|reflexivity]. split; [discriminate|].
    intros (w & Hw & _). discriminate.
Qed.

Lemma first_navigation_asks_the_server_witness :
  let chat := {| path := lit "/chat"; fullPath := lit "/chat";
                 requiresAuth := true |} in
  let answer := Http.resolved
                  {| Http.ok := true; Http.status := 200;
                     Http.content_type := Some (lit "application/json");
                     Http.text := Http.gives (lit "null");
                     Http.json := Http.gives JNull |} in
  fst (beforeEach answer chat state) = to_login (lit "/chat").
Proof.
  intros chat answer.
  refine (proj2 (first_navigation_asks_the_server answer chat eq_refl _) _);
    discriminate.
Defined.

Lemma logout_locks_the_chat_witness :
  let chat := {| path := lit "/chat"; fullPath := lit "/chat?thread_id=t-1";
                 requiresAuth := true |} in
  let signed_in := Auth.mk (JString (lit "ryan")) false [] true in
  beforeEach (Http.rejected (Build_Exn (lit "TypeError") (lit "offline")))
    chat
    (logout (Http.rejected (Build_Exn (lit "TypeError") (lit "offline")))
       signed_in)
  = (to_login (lit "/chat?thread_id=t-1"),
     logout (Http.rejected (Build_Exn (lit "TypeError") (lit "offline")))
       signed_in).
Proof.
  intros chat signed_in.
  exact (proj2 (logout_locks_the_chat _ _ chat signed_in eq_refl)).
Defined.

End RouterFacts.

Module LoginFacts.
Import Js Sse Auth LoginPage AuthFacts.

(** Submitting the login form ends in one of two ways: the page asks the
    router for the [redirect] of the query, or for [/chat] when there is
    none or it is empty, shows no error, and somebody is signed in; or it
    asks nothing of the router and shows an error text that is never
    empty.  The store is not loading in either case. *)
Theorem onSubmit_outcome (redirect : option jsstring)
    (net_login net_me : Http.Fetch) (auth : Store) :
  let page := fst (onSubmit redirect net_login net_me auth) in
  let auth' := snd (onSubmit redirect net_login net_me auth) in
  loading auth' = false /\
  match replaced page with
  | Some target =>
      localError page = [] /\ isAuthed auth' = true /\
      target = match redirect with
               | Some (c :: r) => c :: r
               | Some [] | None => lit "/chat"
               end
  | None =>
      Chat.nonempty (localError page) = true /\
      (Chat.nonempty (error auth') = true -> localError page = error auth')
  end.
Proof.
  cbv zeta. unfold onSubmit.
  pose proof (login_cases net_login net_me auth) as H.
  destruct (login net_login net_me auth) as [auth' | e auth']; simpl.
  - destruct H as (_ & _ & Hauth & _ & Hl & _).
    split; [exact Hl|]. split; [reflexivity|]. split; [exact Hauth|].
    now destruct redirect as [[|c r]|].
  - destruct H as (Hl & _ & _). split; [exact Hl|].
    destruct (Chat.nonempty (error auth')) eqn:He; [now split|].
    split; [|discriminate].
    destruct (Chat.nonempty (msg e)) eqn:Hm; [exact Hm|reflexivity].
Qed.

End LoginFacts.

Module SessionFacts.
Import Js Sse JsFacts SseMore Session.

Lemma drop_spaces_idem (s : jsstring) :
  drop_spaces (drop_spaces s) = drop_spaces s.
Proof.
  induction s as [|c s IH]; simpl; [reflexivity|].
  destruct (is_space c) eqn:E; [exact IH|]. simpl. now rewrite E.
Qed.

Lemma trimEnd_idem (s : jsstring) : trimEnd (trimEnd s) = trimEnd s.
Proof.
  unfold trimEnd. now rewrite rev_involutive, drop_spaces_idem.
Qed.

Lemma drop_spaces_trimEnd (s : jsstring) :
  drop_spaces (trimEnd (drop_spaces s)) = trimEnd (drop_spaces s).
Proof.
  induction s as [|c s IH]; simpl; [reflexivity|].
  destruct (is_space c) eqn:E; [exact IH|].
  change (c :: s) with (([] ++ [c]) ++ s).
  rewrite trimEnd_keeps_prefix by exact E. simpl. now rewrite E.
Qed.

(** Trimming twice is trimming once. *)
Lemma trim_idem (s : jsstring) : trim (trim s) = trim s.
Proof.
  unfold trim. now rewrite drop_spaces_trimEnd, trimEnd_idem.
Qed.

Section Session.
Variable uuid_value : nat -> jsstring.

(** A thread id given in the URL is taken, trimmed, without drawing a new
    id or rewriting the URL; and it is stable: with the id taken as the
    URL's value, [ensureThreadId] gives the same id again, whatever else
    happened to the page. *)
Theorem thread_id_from_url_is_stable (v : jsstring) (s later : t) :
  Chat.nonempty (trim v) = true ->
  let s1 := ensureThreadId uuid_value (q_string v) s in
  threadId s1 = trim v /\ page s1 = page s /\ written s1 = written s /\
  ensureThreadId uuid_value (q_string (threadId s1)) later
    = mk (page later) (threadId s1) (written later).
Proof.
  intros Hv. cbv zeta. unfold ensureThreadId. rewrite Hv. simpl.
  repeat split. now rewrite trim_idem, Hv.
Qed.

(** With no thread id in the URL, with several, or with one that is blank,
    a new id is drawn, becomes the thread id and is written to the URL;
    the transcript is not touched. *)
Theorem blank_thread_id_is_replaced (q : QueryValue) (s : t) :
  match q with
  | q_string v => Forall (fun c => is_space c = true) v
  | q_missing | q_array => True
  end ->
  let s1 := ensureThreadId uuid_value q s in
  threadId s1 = uuid_value (Chat.uuids (page s)) /\
  written s1 = written s ++ [threadId s1] /\
  Chat.uuids (page s1) = Datatypes.S (Chat.uuids (page s)) /\
  Chat.transcript (page s1) = Chat.transcript (page s).
Proof.
  intros Hq. cbv zeta. unfold ensureThreadId.
  destruct q as [| v |]; try (now repeat split).
  rewrite (ChatMore.trim_spaces v Hq). simpl. now repeat split.
Qed.

End Session.

Lemma thread_id_from_url_is_stable_witness :
  ensureThreadId Fixtures.uuid_value
    (q_string (threadId (ensureThreadId Fixtures.uuid_value
                           (q_string (lit " t-7 "))
                           (mk (Fixtures.fresh_page []) [] []))))
    (mk Cases.page_streaming [] [])
  = mk Cases.page_streaming (lit "t-7") [].
Proof.
  exact (proj2 (proj2 (proj2
    (thread_id_from_url_is_stable Fixtures.uuid_value (lit " t-7 ")
       (mk (Fixtures.fresh_page []) [] [])
       (mk Cases.page_streaming [] []) eq_refl)))).
Defined.

Lemma blank_thread_id_is_replaced_witness :
  threadId (ensureThreadId Fixtures.uuid_value (q_string [32; 32])
              (mk (Fixtures.fresh_page []) [] []))
  = Fixtures.uuid_value 0.
Proof.
  refine (proj1 (blank_thread_id_is_replaced Fixtures.uuid_value
                   (q_string [32; 32]) (mk (Fixtures.fresh_page []) [] []) _)).
  repeat constructor.
Defined.

End SessionFacts.
